(** * attr._funcs: asdict, fromdict, has, assoc

    A shallow embedding of [src/attr/_funcs.py] and the properties its
    specification states about it.

    Python objects are modelled by the inductive type [value], runtime type
    annotations by [ty], raised exceptions by the error monad [result].
    The recursion of [fromdict] is bounded by a recursion limit (fuel), as
    the interpreter bounds it; running out of it is [RecursionError]. *)

From Stdlib Require Import List String Ascii ZArith Bool Arith Lia.
From Stdlib Require Import DecimalString.
Import ListNotations.
Local Open Scope list_scope.
Local Open Scope string_scope.

Set Implicit Arguments.
Set Warnings "-register-all".

(* ================================================================= *)
(** ** Data model *)

(** Type annotations, classes and field descriptors refer to each other:
    a field descriptor carries a declared type, a declared type may be a
    class, a class carries its field descriptors in [__attrs_attrs__]. *)
Inductive ty : Type :=
| TNoneType                                   (* type(None) *)
| TAny                                        (* typing.Any *)
| TStr                                        (* str *)
| TLeaf (type_name : string)                  (* int, float, a TypeVar, ... *)
| TClass (c : cls)                            (* a user class, no container *)
| TUnion (union_params : list ty)             (* typing.Union[...] *)
| TDict (parameters : option (ty * ty))       (* dict, typing.Dict[K, V] *)
| TIter (type_name : string) (parameters : option ty)
                                              (* list, set, tuple, List[T], ... *)
with cls : Type :=
| Cls (cls_name : string) (attrs_attrs : option (list attribute))
with attribute : Type :=
| Attribute (attr_name : string) (attr_type : option ty).

Definition cls_name (c : cls) : string := let (n, _) := c in n.
Definition __attrs_attrs__ (c : cls) : option (list attribute) :=
  let (_, s) := c in s.
Definition name (a : attribute) : string := let (n, _) := a in n.
Definition type (a : attribute) : option ty := let (_, t) := a in t.

(** [typing.Optional[X]], for a type [X] that is no union itself, is
    [Union[X, None]]. *)
Definition Optional (X : ty) : ty := TUnion [X; TNoneType].

(** The builtin classes [list], [tuple] and [set], as base classes. *)
Inductive base : Type := base_list | base_tuple | base_set.

(** A subclass of one of them: one that inherits the constructor of its
    base, which takes one iterable, or a [collections.namedtuple], a
    subclass of [tuple] whose constructor takes one argument for each of
    its fields. *)
Inductive subclass : Type :=
| Subclass (b : base) (sub_name : string)
| NamedTuple (sub_name : string) (field_names : list string).

Definition sub_name (sub : subclass) : string :=
  match sub with
  | Subclass _ n => n
  | NamedTuple n _ => n
  end.

Definition base_of (sub : subclass) : base :=
  match sub with
  | Subclass b _ => b
  | NamedTuple _ _ => base_tuple
  end.

(** Python values.  A dict is its items in insertion order, a set its
    elements in iteration order, an instance its class and its attribute
    dictionary; [VSub] is an instance of a subclass of [list], [tuple] or
    [set], with its elements. *)
Inductive value : Type :=
| VNone
| VInt (z : Z)
| VStr (s : string)
| VList (xs : list value)
| VTuple (xs : list value)
| VSet (xs : list value)
| VDict (items : list (value * value))
| VInst (c : cls) (d : list (string * value))
| VSub (sub : subclass) (xs : list value).

(** Messages of the exceptions the module raises, kept structured: the
    arguments of [str.format] rather than the formatted text. *)
Inductive message : Type :=
| Msg (s : string)
| Unable (val : value) (typ : ty) (context : string) (reason : message)
    (* "Unable to deserialize {val} as {typ} at {context} because {reason}" *)
| NotAnAttribute (k : string) (cl : cls).
    (* "{k} is not an attrs attribute on {cl}." *)

Inductive exn : Type :=
| TypeError (m : message)
| KeyError (key : string)
| AttributeError (m : string)
| ValueError (m : message)
| NotAnAttrsClassError (c : cls)
| RecursionError
| OtherError (exc_type : string) (m : string).

Inductive result (A : Type) : Type :=
| Ok (x : A)
| Error (e : exn).
Arguments Ok {A} x.
Arguments Error {A} e.

Definition bind {A B} (r : result A) (k : A -> result B) : result B :=
  match r with
  | Ok x => k x
  | Error e => Error e
  end.

Notation "x <- c ;; k" := (bind c (fun x => k))
  (at level 61, c at next level, right associativity).

Section MapM.
Variables (A B : Type) (f : A -> result B).

(** A list comprehension [[f(x) for x in xs]] whose body may raise. *)
Fixpoint mapM (xs : list A) : result (list B) :=
  match xs with
  | [] => Ok []
  | x :: rest =>
      y <- f x ;;
      ys <- mapM rest ;;
      Ok (y :: ys)
  end.
End MapM.

(* ================================================================= *)
(** ** The Python runtime the module relies on *)

(** [v.__class__] *)
Definition class_of (v : value) : cls :=
  match v with
  | VNone => Cls "NoneType" None
  | VInt _ => Cls "int" None
  | VStr _ => Cls "str" None
  | VList _ => Cls "list" None
  | VTuple _ => Cls "tuple" None
  | VSet _ => Cls "set" None
  | VDict _ => Cls "dict" None
  | VInst c _ => c
  | VSub sub _ => Cls (sub_name sub) None
  end.

(** [hash(v)] succeeds: lists, sets and dicts are unhashable; a tuple is
    hashable when its components are, and so is an instance, which the
    generated [__hash__] hashes by its attribute values (the tests put
    instances in sets). *)
Fixpoint hashable (v : value) : bool :=
  match v with
  | VNone | VInt _ | VStr _ => true
  | VList _ | VSet _ | VDict _ => false
  | VTuple xs | VSub (Subclass base_tuple _) xs | VSub (NamedTuple _ _) xs =>
      forallb hashable xs
  | VSub _ _ => false
  | VInst _ d => forallb (fun p => hashable (snd p)) d
  end.

(** The base and the elements of an instance of [list], [tuple] or [set],
    a subclass included. *)
Definition as_sequence (v : value) : option (base * list value) :=
  match v with
  | VList xs => Some (base_list, xs)
  | VTuple xs => Some (base_tuple, xs)
  | VSet xs => Some (base_set, xs)
  | VSub sub xs => Some (base_of sub, xs)
  | _ => None
  end.

(** [x == y].  Classes are compared by name; sets and dicts regardless of
    order; an instance of a subclass of [list], [tuple] or [set] as its
    base compares. *)
Fixpoint py_eq (x y : value) {struct x} : bool :=
  match x with
  | VNone => match y with VNone => true | _ => false end
  | VInt a => match y with VInt b => Z.eqb a b | _ => false end
  | VStr a => match y with VStr b => String.eqb a b | _ => false end
  | VList xs | VSub (Subclass base_list _) xs =>
      match as_sequence y with
      | Some (base_list, ys) =>
          (fix go (xs ys : list value) : bool :=
             match xs, ys with
             | [], [] => true
             | x :: xs', y :: ys' => py_eq x y && go xs' ys'
             | _, _ => false
             end) xs ys
      | _ => false
      end
  | VTuple xs | VSub (Subclass base_tuple _) xs | VSub (NamedTuple _ _) xs =>
      match as_sequence y with
      | Some (base_tuple, ys) =>
          (fix go (xs ys : list value) : bool :=
             match xs, ys with
             | [], [] => true
             | x :: xs', y :: ys' => py_eq x y && go xs' ys'
             | _, _ => false
             end) xs ys
      | _ => false
      end
  | VSet xs | VSub (Subclass base_set _) xs =>
      match as_sequence y with
      | Some (base_set, ys) =>
          Nat.eqb (List.length xs) (List.length ys)
          && forallb (fun x => existsb (py_eq x) ys) xs
      | _ => false
      end
  | VDict d1 =>
      match y with
      | VDict d2 =>
          Nat.eqb (List.length d1) (List.length d2)
          && forallb (fun kv =>
               existsb (fun kv' => py_eq (fst kv) (fst kv')
                                   && py_eq (snd kv) (snd kv')) d2) d1
      | _ => false
      end
  | VInst c1 d1 =>
      match y with
      | VInst c2 d2 =>
          String.eqb (cls_name c1) (cls_name c2)
          && (fix go (d1 d2 : list (string * value)) : bool :=
                match d1, d2 with
                | [], [] => true
                | kv :: d1', kv' :: d2' =>
                    String.eqb (fst kv) (fst kv')
                    && py_eq (snd kv) (snd kv') && go d1' d2'
                | _, _ => false
                end) d1 d2
      | _ => false
      end
  end.

(** [repr(v)]; the quotes of a string are single ones. *)
Fixpoint py_repr (v : value) : string :=
  match v with
  | VNone => "None"
  | VInt z => NilZero.string_of_int (Z.to_int z)
  | VStr s => "'" ++ s ++ "'"
  | VList xs | VSub (Subclass base_list _) xs =>
      "[" ++ String.concat ", " (map py_repr xs) ++ "]"
  | VTuple xs | VSub (Subclass base_tuple _) xs =>
      match xs with
      | [x] => "(" ++ py_repr x ++ ",)"
      | _ => "(" ++ String.concat ", " (map py_repr xs) ++ ")"
      end
  | VSub (NamedTuple n field_names) xs =>
      n ++ "("
        ++ String.concat ", "
             (map (fun fx => fst fx ++ "=" ++ snd fx)
                  (combine field_names (map py_repr xs)))
        ++ ")"
  | VSet xs =>
      match xs with
      | [] => "set()"
      | _ => "{" ++ String.concat ", " (map py_repr xs) ++ "}"
      end
  | VSub (Subclass base_set n) xs =>
      match xs with
      | [] => n ++ "()"
      | _ => n ++ "({"
               ++ String.concat ", " (map py_repr xs) ++ "})"
      end
  | VDict items =>
      "{" ++ String.concat ", "
               (map (fun kv => py_repr (fst kv) ++ ": " ++ py_repr (snd kv))
                    items)
          ++ "}"
  | VInst c d =>
      cls_name c ++ "("
        ++ String.concat ", "
             (map (fun kv => fst kv ++ "=" ++ py_repr (snd kv)) d)
        ++ ")"
  end.

(** [str(v)], used for the keys of a mapping in context paths. *)
Definition py_str (v : value) : string :=
  match v with
  | VStr s => s
  | _ => py_repr v
  end.

(** The component of [v] that [hash(v)] fails at: the first unhashable
    element of a tuple, or attribute value of an instance, and there
    again. *)
Fixpoint unhashable_part (v : value) : value :=
  match v with
  | VTuple xs | VSub (Subclass base_tuple _) xs | VSub (NamedTuple _ _) xs =>
      (fix first (xs : list value) : value :=
         match xs with
         | [] => v
         | x :: rest => if hashable x then first rest else unhashable_part x
         end) xs
  | VInst _ d =>
      (fix first (d : list (string * value)) : value :=
         match d with
         | [] => v
         | kv :: rest =>
             if hashable (snd kv) then first rest
             else unhashable_part (snd kv)
         end) d
  | _ => v
  end.

Definition unhashable (v : value) : exn :=
  TypeError (Msg ("unhashable type: '"
                    ++ cls_name (class_of (unhashable_part v)) ++ "'")).

(** *** dict *)

Definition dict := list (value * value).

Fixpoint dict_lookup (d : dict) (k : value) : option value :=
  match d with
  | [] => None
  | (k', v) :: rest => if py_eq k' k then Some v else dict_lookup rest k
  end.

(** The store of [d[k] = v] once [k] is known to be hashable: an existing
    key keeps its place, a new one goes last. *)
Fixpoint dict_store (d : dict) (k v : value) : dict :=
  match d with
  | [] => [(k, v)]
  | (k', v') :: rest =>
      if py_eq k' k then (k', v) :: rest else (k', v') :: dict_store rest k v
  end.

(** [d[k] = v] *)
Definition dict_setitem (d : dict) (k v : value) : result dict :=
  if hashable k then Ok (dict_store d k v) else Error (unhashable k).

(** [dict(pairs)], [{k: v for ...}] *)
Fixpoint dict_of_pairs (acc : dict) (pairs : list (value * value))
  : result dict :=
  match pairs with
  | [] => Ok acc
  | (k, v) :: rest =>
      acc' <- dict_setitem acc k v ;;
      dict_of_pairs acc' rest
  end.

(** *** set, tuple, list *)

Fixpoint set_add (xs : list value) (x : value) : list value :=
  match xs with
  | [] => [x]
  | y :: rest => if py_eq y x then y :: rest else y :: set_add rest x
  end.

Fixpoint set_of_list (acc xs : list value) : result (list value) :=
  match xs with
  | [] => Ok acc
  | x :: rest =>
      if hashable x then set_of_list (set_add acc x) rest
      else Error (unhashable x)
  end.

(** The container constructors: [list], [tuple], [set], and the class of
    an instance of a subclass of one of them. *)
Inductive container : Type :=
| mk_list
| mk_tuple
| mk_set
| mk_sub (sub : subclass).

(** The names in the message of a call that lacks arguments: one name,
    two names joined by [and], or more, with commas. *)
Fixpoint comma_and (names : list string) : string :=
  match names with
  | [] => ""
  | [z] => "and '" ++ z ++ "'"
  | y :: more => "'" ++ y ++ "', " ++ comma_and more
  end.

Definition quoted_names (names : list string) : string :=
  match names with
  | [] => ""
  | [a] => "'" ++ a ++ "'"
  | [a; b] => "'" ++ a ++ "' and '" ++ b ++ "'"
  | _ => comma_and names
  end.

(** The error of calling the class of a namedtuple with one argument,
    when its fields are not one. *)
Definition namedtuple_arity (field_names : list string) : exn :=
  TypeError
    (Msg match field_names with
         | [] => "__new__() takes 1 positional argument but 2 were given"
         | _ :: missing =>
             "__new__() missing "
               ++ NilZero.string_of_uint (Nat.to_uint (List.length missing))
               ++ " required positional argument"
               ++ (match missing with [_] => "" | _ => "s" end)
               ++ ": " ++ quoted_names missing
         end).

(** [cf(xs)] for a list [xs] *)
Definition construct_container (cf : container) (xs : list value)
  : result value :=
  match cf with
  | mk_list => Ok (VList xs)
  | mk_tuple => Ok (VTuple xs)
  | mk_set => ys <- set_of_list [] xs ;; Ok (VSet ys)
  | mk_sub (Subclass base_set n) =>
      ys <- set_of_list [] xs ;; Ok (VSub (Subclass base_set n) ys)
  | mk_sub (Subclass b n) => Ok (VSub (Subclass b n) xs)
  | mk_sub (NamedTuple n [f]) => Ok (VSub (NamedTuple n [f]) [VList xs])
  | mk_sub (NamedTuple _ field_names) => Error (namedtuple_arity field_names)
  end.

(** [getattr(inst, name)] *)
Fixpoint attr_lookup (d : list (string * value)) (n : string) : option value :=
  match d with
  | [] => None
  | (k, v) :: rest => if String.eqb k n then Some v else attr_lookup rest n
  end.

Definition no_attribute (v : value) (n : string) : exn :=
  AttributeError ("'" ++ cls_name (class_of v)
                      ++ "' object has no attribute '" ++ n ++ "'").

Definition getattr (inst : value) (n : string) : result value :=
  match inst with
  | VInst _ d =>
      match attr_lookup d n with
      | Some v => Ok v
      | None => Error (no_attribute inst n)
      end
  | _ => Error (no_attribute inst n)
  end.

(* ================================================================= *)
(** ** has *)

(** [getattr(cls, "__attrs_attrs__", None) is not None] *)
Definition has (c : cls) : bool :=
  match __attrs_attrs__ c with
  | Some _ => true
  | None => false
  end.

(** Modelled from the spec: [fields] of [attr._make], which is not among
    the sources.  It returns the field descriptors of a declaratively
    attributed class, in declaration order, and fails for any other class. *)
Definition fields (c : cls) : result (list attribute) :=
  match __attrs_attrs__ c with
  | Some attrs => Ok attrs
  | None => Error (NotAnAttrsClassError c)
  end.

(* ================================================================= *)
(** ** asdict *)

(** A [filter] callback: called with the field descriptor and the value,
    it answers or raises. *)
Definition filter_t := attribute -> value -> result bool.

Section GetattrThen.
Variables (R : Type) (k : value -> result R).

Fixpoint attr_lookup_then (d : list (string * value)) (n : string)
         (missing : result R) : result R :=
  match d with
  | [] => missing
  | (k', v) :: rest =>
      if String.eqb k' n then k v else attr_lookup_then rest n missing
  end.

(** [v = getattr(inst, n)] followed by [k v]; see [getattr_then_eq]. *)
Definition getattr_then (inst : value) (n : string) : result R :=
  match inst with
  | VInst _ d => attr_lookup_then d n (Error (no_attribute inst n))
  | _ => Error (no_attribute inst n)
  end.
End GetattrThen.

(** [v.__class__] for an instance [v] of [tuple], [list] or [set]. *)
Definition container_of (v : value) : container :=
  match v with
  | VTuple _ => mk_tuple
  | VSet _ => mk_set
  | VSub sub _ => mk_sub sub
  | _ => mk_list
  end.

(** [asdict(inst, recurse, filter, dict_factory=dict,
    retain_collection_types)].  The nested calls are the source's: those
    for a nested instance and for the elements of a sequence pass [filter]
    on and leave [retain_collection_types] at its default; those for the
    keys and values of a mapping pass neither. *)
Fixpoint asdict (inst : value) (recurse : bool) (filter : option filter_t)
         (retain_collection_types : bool) {struct inst} : result value :=
  attrs <- fields (class_of inst) ;;
  (fix loop (attrs : list attribute) (rv : dict) {struct attrs}
     : result value :=
     match attrs with
     | [] => Ok (VDict rv)
     | a :: rest =>
         getattr_then (fun v =>
           keep <- match filter with
                   | Some f => f a v
                   | None => Ok true
                   end ;;
           if negb keep then loop rest rv
           else
             x <- (if recurse then
                     if has (class_of v) then asdict v true filter false
                     else
                       match v with
                       | VTuple xs | VList xs | VSet xs | VSub _ xs =>
                           let cf := if retain_collection_types
                                     then container_of v else mk_list in
                           ys <- mapM (fun i =>
                                   if has (class_of i)
                                   then asdict i true filter false
                                   else Ok i) xs ;;
                           construct_container cf ys
                       | VDict items =>
                           (fix df (items : list (value * value)) (acc : dict)
                              : result value :=
                              match items with
                              | [] => Ok (VDict acc)
                              | (kk, vv) :: more =>
                                  k' <- (if has (class_of kk)
                                         then asdict kk true None false
                                         else Ok kk) ;;
                                  v' <- (if has (class_of vv)
                                         then asdict vv true None false
                                         else Ok vv) ;;
                                  acc' <- dict_setitem acc k' v' ;;
                                  df more acc'
                              end) items []
                       | _ => Ok v
                       end
                   else Ok v) ;;
             rv' <- dict_setitem rv (VStr (name a)) x ;;
             loop rest rv') inst (name a)
     end) attrs [].

(* ================================================================= *)
(** ** fromdict *)

(** A [union_discriminator] callback: called with the value and the union
    type, it answers the type to deserialize as, or raises. *)
Definition discriminator_t := value -> ty -> result ty.

Definition not_iterable (v : value) : exn :=
  TypeError (Msg ("'" ++ cls_name (class_of v) ++ "' object is not iterable")).

(** The error of [key in v] for a [v] that is no container. *)
Definition not_a_container (v : value) : exn :=
  TypeError (Msg ("argument of type '" ++ cls_name (class_of v)
                    ++ "' is not iterable")).

(** The name of a builtin base class. *)
Definition base_name (b : base) : string :=
  match b with
  | base_list => "list"
  | base_tuple => "tuple"
  | base_set => "set"
  end.

(** [key in dct] *)
Definition contains (dct : value) (key : string) : result bool :=
  match dct with
  | VDict d =>
      Ok (match dict_lookup d (VStr key) with Some _ => true | None => false end)
  | VList xs | VTuple xs | VSet xs | VSub _ xs =>
      Ok (existsb (fun x => py_eq x (VStr key)) xs)
  | VStr s =>
      Ok (match index 0 key s with Some _ => true | None => false end)
  | VNone | VInt _ | VInst _ _ => Error (not_a_container dct)
  end.

(** [dct[key]] for a string [key] *)
Definition getitem (dct : value) (key : string) : result value :=
  match dct with
  | VDict d =>
      match dict_lookup d (VStr key) with
      | Some v => Ok v
      | None => Error (KeyError key)
      end
  | VList _ | VTuple _ | VSub (Subclass base_list _) _
  | VSub (Subclass base_tuple _) _ | VSub (NamedTuple _ _) _ =>
      Error (TypeError
               (Msg (match as_sequence dct with
                     | Some (b, _) => base_name b
                     | None => ""
                     end ++ " indices must be integers or slices, not str")))
  | VStr _ => Error (TypeError (Msg "string indices must be integers"))
  | VSet _ | VSub (Subclass base_set _) _ | VNone | VInt _ | VInst _ _ =>
      Error (TypeError (Msg ("'" ++ cls_name (class_of dct)
                                 ++ "' object is not subscriptable")))
  end.

(** [dct.get(key)] *)
Definition dict_get (dct : value) (key : string) : result value :=
  match dct with
  | VDict d =>
      Ok (match dict_lookup d (VStr key) with Some v => v | None => VNone end)
  | _ => Error (no_attribute dct "get")
  end.

(** [a.items()] *)
Definition items (a : value) : result (list (value * value)) :=
  match a with
  | VDict d => Ok d
  | _ => Error (no_attribute a "items")
  end.

Fixpoint characters (s : string) : list value :=
  match s with
  | EmptyString => []
  | String c rest => VStr (String c EmptyString) :: characters rest
  end.

(** [for v in a] *)
Definition iter (a : value) : result (list value) :=
  match a with
  | VList xs | VTuple xs | VSet xs | VSub _ xs => Ok xs
  | VDict d => Ok (map fst d)
  | VStr s => Ok (characters s)
  | VNone | VInt _ | VInst _ _ => Error (not_iterable a)
  end.

(** Modelled from the spec: the constructor of a declaratively attributed
    class, which [attr._make] generates and which is not among the sources.
    The call of [cls] with the keywords [cons] takes one keyword argument per
    field descriptor and holds
    one value per field, in declaration order; a missing or an unexpected
    keyword is a [TypeError]. *)
Definition construct (c : cls) (cons : dict) : result value :=
  match __attrs_attrs__ c with
  | None => Error (TypeError (Msg "object() takes no parameters"))
  | Some attrs =>
      d <- mapM (fun a =>
             match dict_lookup cons (VStr (name a)) with
             | Some v => Ok (name a, v)
             | None =>
                 Error (TypeError (Msg ("__init__() missing argument: '"
                                          ++ name a ++ "'")))
             end) attrs ;;
      if forallb (fun kv =>
                    existsb (fun a => py_eq (fst kv) (VStr (name a))) attrs) cons
      then Ok (VInst c d)
      else Error (TypeError (Msg "__init__() got an unexpected keyword argument"))
  end.

Definition is_NoneType (t : ty) : bool :=
  match t with
  | TNoneType => true
  | _ => false
  end.

(** [Union[tuple(params)]] of [typing]: no parameter is an error, a single
    one is that type itself. *)
Definition Union_getitem (params : list ty) : result ty :=
  match params with
  | [] => Error (TypeError (Msg "Cannot take a Union of no types."))
  | [t] => Ok t
  | _ => Ok (TUnion params)
  end.

(** ['.'.join(context) + '.' + key_name] *)
Definition dotted (context : list string) (key_name : string) : string :=
  String.concat "." context ++ "." ++ key_name.

(** [try: ... except TypeError as e: raise TypeError("Unable to deserialize
    {val} as {typ} at {context} because {reason}")] *)
Definition reraise_TypeError (a : value) (typ : ty) (context : string)
           (r : result value) : result value :=
  match r with
  | Error (TypeError reason) => Error (TypeError (Unable a typ context reason))
  | _ => r
  end.

Section Fromdict.
(** The arguments of [fromdict] that its inner functions close over. *)
Variables (recurse ignore_missing : bool).
Variable rename : string -> string.
Variable union_discriminator : discriminator_t.

Definition _is_optional (typ : ty) : bool :=
  match typ with
  | TUnion union_params => existsb is_NoneType union_params
  | _ => false
  end.

(** The container constructor chosen from [typ.__name__]. *)
Definition mk_of (type_name : string) : container :=
  if String.eqb type_name "Tuple" || String.eqb type_name "tuple"
  then mk_tuple
  else if String.eqb type_name "Set" || String.eqb type_name "set"
  then mk_set
  else mk_list.

(** [_fromdict] and the [deserialize_val] it defines.  [context] and
    [key_name], which [deserialize_val] takes from the enclosing call of
    [_fromdict] and its loop, are arguments here.  Each call uses one
    unit of [fuel].  The branches of the dispatch are in the order of the
    source: a declarative class, an optional, a mapping ([Any] passes
    there, unparameterized), an iterable that is not [str], a union, and
    any other type.  The dict comprehension takes the key before the
    value, as it is written. *)
Fixpoint _fromdict (fuel : nat) (cls : cls) (dct : value)
         (context : list string) {struct fuel} : result value :=
  match fuel with
  | O => Error RecursionError
  | S n =>
      attrs <- fields cls ;;
      cons <- (fix loop (attrs : list attribute) (cons : dict)
                 : result dict :=
                 match attrs with
                 | [] => Ok cons
                 | a :: rest =>
                     let key_name := rename (name a) in
                     val <- (if ignore_missing then dict_get dct key_name
                             else
                               present <- contains dct key_name ;;
                               if present then getitem dct key_name
                               else Error (KeyError (dotted context key_name))) ;;
                     x <- (if recurse then
                             match type a with
                             | Some typ =>
                                 deserialize_val n context key_name
                                                 val typ key_name
                             | None => Ok val
                             end
                           else Ok val) ;;
                     cons' <- dict_setitem cons (VStr (name a)) x ;;
                     loop rest cons'
                 end) attrs [] ;;
      construct cls cons
  end

with deserialize_val (fuel : nat) (context : list string)
       (key_name : string) (a : value) (typ : ty) (name : string)
       {struct fuel} : result value :=
  match fuel with
  | O => Error RecursionError
  | S n =>
      reraise_TypeError a typ (dotted context key_name)
        match typ with
        | TClass c =>
            if has c then _fromdict n c a (context ++ [name])%list
            else Ok a
        | TUnion union_params =>
            if _is_optional typ then
              match a with
              | VNone => Ok VNone
              | _ =>
                  if Nat.ltb 2 (List.length union_params) then
                    t <- Union_getitem
                           (filter (fun t => negb (is_NoneType t))
                                   union_params) ;;
                    deserialize_val n context key_name a t name
                  else
                    deserialize_val n context key_name a
                                    (hd TNoneType union_params) name
              end
            else
              actual_type <- union_discriminator a typ ;;
              deserialize_val n context key_name a actual_type name
        | TAny => Ok a
        | TDict None => Ok a
        | TDict (Some (key_gen, val_gen)) =>
            kvs <- items a ;;
            (fix comprehension (kvs : list (value * value)) (acc : dict)
               : result value :=
               match kvs with
               | [] => Ok (VDict acc)
               | (k, v) :: more =>
                   k' <- deserialize_val n context key_name k key_gen name ;;
                   v' <- deserialize_val n context key_name v val_gen
                                         (name ++ py_str k) ;;
                   acc' <- dict_setitem acc k' v' ;;
                   comprehension more acc'
               end) kvs []
        | TIter type_name parameters =>
            let mk := mk_of type_name in
            match parameters with
            | Some gen =>
                xs <- iter a ;;
                ys <- mapM (fun v =>
                        deserialize_val n context key_name v gen
                                        (name ++ "[]")) xs ;;
                construct_container mk ys
            | None =>
                xs <- iter a ;;
                construct_container mk xs
            end
        | TStr | TLeaf _ | TNoneType => Ok a
        end
  end.

Definition fromdict (fuel : nat) (cls : cls) (dct : value) : result value :=
  _fromdict fuel cls dct [].
End Fromdict.

(* ================================================================= *)
(** ** assoc *)

(** [assoc] copies an object and assigns to the copy, so objects live in a
    store here and an instance is a reference into it. *)
Definition heap := list value.
Definition ref := nat.

(** Computations over the store that may raise. *)
Definition M (A : Type) : Type := heap -> result A * heap.

Definition ret {A} (x : A) : M A := fun h => (Ok x, h).
Definition raise {A} (e : exn) : M A := fun h => (Error e, h).
Definition bindM {A B} (m : M A) (k : A -> M B) : M B :=
  fun h =>
    match m h with
    | (Ok x, h') => k x h'
    | (Error e, h') => (Error e, h')
    end.

Notation "x <~ c ;; k" := (bindM c (fun x => k))
  (at level 61, c at next level, right associativity).

Definition deref (r : ref) : M value :=
  fun h =>
    match nth_error h r with
    | Some o => (Ok o, h)
    | None => (Error (OtherError "ReferenceError" "dangling reference"), h)
    end.

Fixpoint heap_update (h : heap) (r : ref) (o : value) : heap :=
  match h, r with
  | [], _ => []
  | _ :: rest, O => o :: rest
  | x :: rest, S r' => x :: heap_update rest r' o
  end.

(** [copy.copy(inst)]: a new object, with the class and the attribute
    values of [inst]. *)
Definition copy (inst : ref) : M ref :=
  o <~ deref inst ;;
  fun h => (Ok (List.length h), (h ++ [o])%list).

(** The attribute dictionary after [name = v]. *)
Fixpoint attr_store (d : list (string * value)) (n : string) (v : value)
  : list (string * value) :=
  match d with
  | [] => [(n, v)]
  | (k, x) :: rest =>
      if String.eqb k n then (k, v) :: rest else (k, x) :: attr_store rest n v
  end.

(** [_obj_setattr(obj, n, v)], that is [object.__setattr__] *)
Definition _obj_setattr (obj : ref) (n : string) (v : value) : M unit :=
  o <~ deref obj ;;
  match o with
  | VInst c d => fun h => (Ok tt, heap_update h obj (VInst c (attr_store d n v)))
  | _ => raise (no_attribute o n)
  end.

(** [attr_map[n] = a] *)
Fixpoint attr_map_store (m : list (string * attribute)) (n : string)
         (a : attribute) : list (string * attribute) :=
  match m with
  | [] => [(n, a)]
  | (k, b) :: rest =>
      if String.eqb k n then (k, a) :: rest
      else (k, b) :: attr_map_store rest n a
  end.

(** [{a.name: a for a in attrs}], from the entries [acc] *)
Fixpoint attr_map_of (attrs : list attribute) (acc : list (string * attribute))
  : list (string * attribute) :=
  match attrs with
  | [] => acc
  | a :: rest => attr_map_of rest (attr_map_store acc (name a) a)
  end.

(** [attr_map.get(k, NOTHING)]; [None] stands for [NOTHING]. *)
Fixpoint attr_map_get (m : list (string * attribute)) (k : string)
  : option attribute :=
  match m with
  | [] => None
  | (k', a) :: rest => if String.eqb k' k then Some a else attr_map_get rest k
  end.

Section AssocLoop.
Variables (new : ref) (cl : cls) (attr_map : list (string * attribute)).

(** [for k, v in iteritems(changes): ...] *)
Fixpoint assoc_loop (changes : list (string * value)) : M unit :=
  match changes with
  | [] => ret tt
  | (k, v) :: rest =>
      match attr_map_get attr_map k with
      | None => raise (ValueError (NotAnAttribute k cl))
      | Some _ =>
          _ <~ _obj_setattr new k v ;;
          assoc_loop rest
      end
  end.
End AssocLoop.

(** [assoc(inst, **changes)], the keyword arguments in iteration order *)
Definition assoc (inst : ref) (changes : list (string * value)) : M ref :=
  new <~ copy inst ;;
  o <~ deref new ;;
  match __attrs_attrs__ (class_of o) with
  | None =>
      raise (AttributeError ("type object '" ++ cls_name (class_of o)
                               ++ "' has no attribute '__attrs_attrs__'"))
  | Some attrs =>
      _ <~ assoc_loop new (class_of o) (attr_map_of attrs []) changes ;;
      ret new
  end.

(* ================================================================= *)
(** ** The functions in direct style

    [asdict] reads a field with [getattr_then] and runs its loops as local
    fixpoints; the definitions below name these parts, and the equations
    after them relate them to [asdict] and [_fromdict]. *)

(** The conversion of an element of a sequence, and of a key or value of a
    mapping ([filter] is [None] there). *)
Definition asdict_item (filter : option filter_t) (i : value) : result value :=
  if has (class_of i) then asdict i true filter false else Ok i.

(** [dict_factory((k', v') for kk, vv in iteritems(v))] *)
Fixpoint asdict_mapping (items : list (value * value)) (acc : dict)
  : result value :=
  match items with
  | [] => Ok (VDict acc)
  | (kk, vv) :: more =>
      k' <- asdict_item None kk ;;
      v' <- asdict_item None vv ;;
      acc' <- dict_setitem acc k' v' ;;
      asdict_mapping more acc'
  end.

(** What [asdict] stores for a field whose value is [v]. *)
Definition asdict_value (recurse : bool) (filter : option filter_t)
           (retain_collection_types : bool) (v : value) : result value :=
  if recurse then
    if has (class_of v) then asdict v true filter false
    else
      match v with
      | VTuple xs | VList xs | VSet xs | VSub _ xs =>
          let cf := if retain_collection_types then container_of v
                    else mk_list in
          ys <- mapM (asdict_item filter) xs ;;
          construct_container cf ys
      | VDict items => asdict_mapping items []
      | _ => Ok v
      end
  else Ok v.

(** [filter is not None and not filter(a, v)], negated *)
Definition keeps (filter : option filter_t) (a : attribute) (v : value)
  : result bool :=
  match filter with
  | Some f => f a v
  | None => Ok true
  end.

(** The loop [for a in attrs] of [asdict], from the dictionary [rv]. *)
Fixpoint asdict_loop (inst : value) (recurse : bool) (filter : option filter_t)
         (retain_collection_types : bool) (attrs : list attribute) (rv : dict)
  : result value :=
  match attrs with
  | [] => Ok (VDict rv)
  | a :: rest =>
      v <- getattr inst (name a) ;;
      keep <- keeps filter a v ;;
      if negb keep then
        asdict_loop inst recurse filter retain_collection_types rest rv
      else
        x <- asdict_value recurse filter retain_collection_types v ;;
        rv' <- dict_setitem rv (VStr (name a)) x ;;
        asdict_loop inst recurse filter retain_collection_types rest rv'
  end.

Section FromdictParts.
Variables (recurse ignore_missing : bool).
Variable rename : string -> string.
Variable union_discriminator : discriminator_t.

Let deserialize_val' :=
  deserialize_val recurse ignore_missing rename union_discriminator.

(** Step 2 of the field walk: the raw value of the key. *)
Definition raw_value (dct : value) (context : list string)
           (key_name : string) : result value :=
  if ignore_missing then dict_get dct key_name
  else
    present <- contains dct key_name ;;
    if present then getitem dct key_name
    else Error (KeyError (dotted context key_name)).

(** Steps 3 and 4: the value of the field from the raw value. *)
Definition field_value (n : nat) (context : list string) (a : attribute)
           (val : value) : result value :=
  if recurse then
    match type a with
    | Some typ =>
        deserialize_val' n context (rename (name a)) val typ
                         (rename (name a))
    | None => Ok val
    end
  else Ok val.

(** The loop [for a in attrs] of [_fromdict], from the dictionary
    [cons]; its calls of [deserialize_val] have fuel [n]. *)
Fixpoint fromdict_loop (n : nat) (dct : value) (context : list string)
         (attrs : list attribute) (cons : dict) : result dict :=
  match attrs with
  | [] => Ok cons
  | a :: rest =>
      val <- raw_value dct context (rename (name a)) ;;
      x <- field_value n context a val ;;
      cons' <- dict_setitem cons (VStr (name a)) x ;;
      fromdict_loop n dct context rest cons'
  end.

(** The dict comprehension of the mapping branch, from the entries
    [acc]. *)
Fixpoint deserialize_items (n : nat) (context : list string)
         (key_name : string) (key_gen val_gen : ty) (name : string)
         (kvs : list (value * value)) (acc : dict) : result value :=
  match kvs with
  | [] => Ok (VDict acc)
  | (k, v) :: more =>
      k' <- deserialize_val' n context key_name k key_gen name ;;
      v' <- deserialize_val' n context key_name v val_gen
                             (name ++ py_str k) ;;
      acc' <- dict_setitem acc k' v' ;;
      deserialize_items n context key_name key_gen val_gen name more acc'
  end.

(** The body of the [try] of [deserialize_val]: the dispatch on the
    declared type, its recursive calls with fuel [n]. *)
Definition dispatch (n : nat) (context : list string) (key_name : string)
           (a : value) (typ : ty) (name : string) : result value :=
  match typ with
  | TClass c =>
      if has c
      then _fromdict recurse ignore_missing rename union_discriminator
                     n c a (context ++ [name])%list
      else Ok a
  | TUnion union_params =>
      if _is_optional typ then
        match a with
        | VNone => Ok VNone
        | _ =>
            if Nat.ltb 2 (List.length union_params) then
              t <- Union_getitem
                     (filter (fun t => negb (is_NoneType t)) union_params) ;;
              deserialize_val' n context key_name a t name
            else
              deserialize_val' n context key_name a
                               (hd TNoneType union_params) name
        end
      else
        actual_type <- union_discriminator a typ ;;
        deserialize_val' n context key_name a actual_type name
  | TAny => Ok a
  | TDict None => Ok a
  | TDict (Some (key_gen, val_gen)) =>
      kvs <- items a ;;
      deserialize_items n context key_name key_gen val_gen name kvs []
  | TIter type_name parameters =>
      match parameters with
      | Some gen =>
          xs <- iter a ;;
          ys <- mapM (fun v =>
                  deserialize_val' n context key_name v gen (name ++ "[]"))
                     xs ;;
          construct_container (mk_of type_name) ys
      | None =>
          xs <- iter a ;;
          construct_container (mk_of type_name) xs
      end
  | TStr | TLeaf _ | TNoneType => Ok a
  end.
End FromdictParts.

(** Modelled from the spec: the equality that [attr._make] generates for a
    declaratively attributed class, which is not among the sources.  Two
    instances are equal when they have the same class and the same value
    in every field. *)
Definition instances_equal (x y : value) : Prop :=
  class_of x = class_of y /\
  forall attrs, fields (class_of x) = Ok attrs ->
    map (fun a => getattr x (name a)) attrs =
    map (fun a => getattr y (name a)) attrs.

(** [isinstance(e, TypeError)] *)
Definition is_TypeError (e : exn) : bool :=
  match e with
  | TypeError _ => true
  | _ => false
  end.

(** [isinstance(e, KeyError)] *)
Definition is_KeyError (e : exn) : bool :=
  match e with
  | KeyError _ => true
  | _ => false
  end.

(** The error is a type-mismatch error: a [TypeError] with the message of
    [deserialize_val]. *)
Definition is_type_mismatch (e : exn) : bool :=
  match e with
  | TypeError (Unable _ _ _ _) => true
  | _ => false
  end.

(* ================================================================= *)
(** ** Classes and callbacks of the tests *)

(** The default [rename] and [union_discriminator] of [fromdict]. *)
Definition rename_default : string -> string := fun a => a.
Definition union_discriminator_default : discriminator_t :=
  fun _ _ => Ok TAny.

(** The class [C] of the tests, with the untyped fields [x] and [y]. *)
Definition C : cls := Cls "C" (Some [Attribute "x" None; Attribute "y" None]).
Definition C_ (x y : value) : value := VInst C [("x", x); ("y", y)].

(** A class without fields, and a class that is not declarative. *)
Definition Empty : cls := Cls "D" (Some []).
Definition object : cls := Cls "object" None.

(** A class with one field [x] of the declared type [typ]. *)
Definition One (typ : ty) : cls := Cls "One" (Some [Attribute "x" (Some typ)]).
Definition One_ (typ : ty) (x : value) : value := VInst (One typ) [("x", x)].

(** The filter [lambda a, v: a.name != n]. *)
Definition name_is_not (n : string) : filter_t :=
  fun a _ => Ok (negb (String.eqb (name a) n)).



(* ================================================================= *)
(** ** Auxiliary definitions of the proofs *)

(** The value of the attribute [n] in the attribute dictionary [d]. *)
Definition attr_value (d : list (string * value)) (n : string) : value :=
  match attr_lookup d n with
  | Some v => v
  | None => VNone
  end.

(** The dictionary [rv] after [rv[a.name] = getattr(inst, a.name)] for
    each [a] of [attrs], where [d] is the attribute dictionary of [inst]. *)
Definition store_fields (d : list (string * value)) (attrs : list attribute)
           (rv : dict) : dict :=
  fold_left (fun acc a => dict_store acc (VStr (name a)) (attr_value d (name a)))
            attrs rv.

(** The computation raises no missing-key error. *)
Definition no_KeyError {A} (r : result A) : Prop :=
  forall k, r <> Error (KeyError k).




(** The attribute dictionary after the assignments of [changes], in
    order. *)
Definition apply_changes (d : list (string * value))
           (changes : list (string * value)) : list (string * value) :=
  fold_left (fun d kv => attr_store d (fst kv) (snd kv)) changes d.

(** [k] names a field descriptor of [attrs]. *)
Definition names_field (attrs : list attribute) (k : string) : Prop :=
  exists a, In a attrs /\ name a = k.


(* ================================================================= *)
(** ** Auxiliary definitions of the further properties *)

(** The filter keeps the field [a] of [inst]. *)
Definition is_kept (inst : value) (filter : option filter_t) (a : attribute)
  : bool :=
  match getattr inst (name a) with
  | Ok v =>
      match keeps filter a v with
      | Ok keep => keep
      | Error _ => false
      end
  | Error _ => false
  end.


(** The dictionary [rv] after [rv[a.name] = g(a.name)] for each [a] of
    [attrs]. *)
Definition store_values (g : string -> value) (attrs : list attribute)
           (rv : dict) : dict :=
  fold_left (fun acc a => dict_store acc (VStr (name a)) (g (name a))) attrs rv.

(** The value of the key [n] in the mapping [d], [None] without it. *)
Definition key_value (d : dict) (n : string) : value :=
  match dict_lookup d (VStr n) with
  | Some v => v
  | None => VNone
  end.

(** [None], an int or a str. *)
Definition scalar (v : value) : bool :=
  match v with
  | VNone | VInt _ | VStr _ => true
  | _ => false
  end.

(** The value [v] of the field [a] is what the declared type of the field
    says, for the instances that [P] admits: a scalar for a field without
    declared type or with a leaf type, an instance for a class, a list of
    instances for a list of a class, [None] or an instance for an optional
    class. *)
Definition field_conforms (P : value -> cls -> Prop) (a : attribute)
           (v : value) : Prop :=
  match type a with
  | None | Some TStr | Some (TLeaf _) => scalar v = true
  | Some (TClass c') => P v c'
  | Some (TIter type_name (Some (TClass c'))) =>
      mk_of type_name = mk_list /\
      exists xs, v = VList xs /\ Forall (fun i => P i c') xs
  | Some (TUnion [TClass c'; TNoneType]) => v = VNone \/ P v c'
  | Some _ => False
  end.

(** [x] is an instance of the declarative class [c] that holds the values
    of the fields of [c], in the order of their declaration, each as its
    declared type says, with instances nested at most [n] deep. *)
Fixpoint conforms (n : nat) (x : value) (c : cls) {struct n} : Prop :=
  match n with
  | O => False
  | S n' =>
      exists attrs vs,
        __attrs_attrs__ c = Some attrs /\
        NoDup (map name attrs) /\
        x = VInst c (combine (map name attrs) vs) /\
        Forall2 (field_conforms (conforms n')) attrs vs
  end.

(** What [asdict] with [recurse] stores for the attribute [n] of the
    attribute dictionary [d]. *)
Definition converted (d : list (string * value)) (n : string) : value :=
  match asdict_value true None false (attr_value d n) with
  | Ok y => y
  | Error _ => VNone
  end.

(** A class with a field of the class [C] and a field of lists of [C]. *)
Definition Nest : cls :=
  Cls "Nest" (Some [Attribute "x" (Some (TClass C));
                    Attribute "y" (Some (TIter "List" (Some (TClass C))))]).

(** A type that the dispatch passes through: [str], [NoneType], [Any] or
    an opaque type. *)
Definition is_leaf (t : ty) : bool :=
  match t with
  | TStr | TNoneType | TAny | TLeaf _ => true
  | _ => false
  end.

(** The keys of the mapping are hashable and pairwise different, as the
    keys of a dict are. *)
Fixpoint well_keyed (d : dict) : Prop :=
  match d with
  | [] => True
  | (k, _) :: rest =>
      hashable k = true /\
      (forall kv, In kv rest -> py_eq k (fst kv) = false) /\
      well_keyed rest
  end.

(* ================================================================= *)
(** ** Calls of the callbacks inside nested values *)



Section DiscriminatorRaises.
Variable ignore_missing : bool.
Variable rename : string -> string.
Variable union_discriminator : discriminator_t.
Variable e : exn.

(** The call of [deserialize_val] with the given fuel reaches a call of
    the discriminator that raises [e]: on the union itself, or on the way
    through the type that the discriminator answered, the alternative of
    an optional, the fields of a class, the elements of an iterable, the
    keys or the values of a mapping.  What comes before in the order of
    evaluation is deserialized first.  [walk_raises] is the same for a
    call of [_fromdict] with [recurse]. *)
Inductive deserialize_raises
  : nat -> list string -> string -> value -> ty -> string -> Prop :=
| raises_at_union n context key_name a ps nm :
    _is_optional (TUnion ps) = false ->
    union_discriminator a (TUnion ps) = Error e ->
    deserialize_raises (S n) context key_name a (TUnion ps) nm
| raises_at_answer n context key_name a ps t nm :
    _is_optional (TUnion ps) = false ->
    union_discriminator a (TUnion ps) = Ok t ->
    deserialize_raises n context key_name a t nm ->
    deserialize_raises (S n) context key_name a (TUnion ps) nm
| raises_at_optional n context key_name a ps t nm :
    _is_optional (TUnion ps) = true ->
    a <> VNone ->
    (if Nat.ltb 2 (List.length ps)
     then Union_getitem (filter (fun t => negb (is_NoneType t)) ps)
     else Ok (hd TNoneType ps)) = Ok t ->
    deserialize_raises n context key_name a t nm ->
    deserialize_raises (S n) context key_name a (TUnion ps) nm
| raises_at_class n context key_name a c nm :
    has c = true ->
    walk_raises n c a (context ++ [nm])%list ->
    deserialize_raises (S n) context key_name a (TClass c) nm
| raises_at_element n context key_name a type_name gen nm xpre v xpost ys :
    iter a = Ok (xpre ++ v :: xpost)%list ->
    mapM (fun v => deserialize_val true ignore_missing rename
                                   union_discriminator n context key_name
                                   v gen (nm ++ "[]"))
         xpre = Ok ys ->
    deserialize_raises n context key_name v gen (nm ++ "[]") ->
    deserialize_raises (S n) context key_name a
                       (TIter type_name (Some gen)) nm
| raises_at_key n context key_name a key_gen val_gen nm pre k v post acc :
    items a = Ok (pre ++ (k, v) :: post)%list ->
    deserialize_items true ignore_missing rename union_discriminator
                      n context key_name key_gen val_gen nm pre []
    = Ok (VDict acc) ->
    deserialize_raises n context key_name k key_gen nm ->
    deserialize_raises (S n) context key_name a
                       (TDict (Some (key_gen, val_gen))) nm
| raises_at_value n context key_name a key_gen val_gen nm pre k v post acc k' :
    items a = Ok (pre ++ (k, v) :: post)%list ->
    deserialize_items true ignore_missing rename union_discriminator
                      n context key_name key_gen val_gen nm pre []
    = Ok (VDict acc) ->
    deserialize_val true ignore_missing rename union_discriminator
                    n context key_name k key_gen nm = Ok k' ->
    deserialize_raises n context key_name v val_gen (nm ++ py_str k) ->
    deserialize_raises (S n) context key_name a
                       (TDict (Some (key_gen, val_gen))) nm

with walk_raises : nat -> cls -> value -> list string -> Prop :=
| raises_at_field n c dct context pre a post cons val typ :
    fields c = Ok (pre ++ a :: post)%list ->
    fromdict_loop true ignore_missing rename union_discriminator
                  n dct context pre [] = Ok cons ->
    raw_value ignore_missing dct context (rename (name a)) = Ok val ->
    type a = Some typ ->
    deserialize_raises n context (rename (name a)) val typ
                       (rename (name a)) ->
    walk_raises (S n) c dct context.
End DiscriminatorRaises.

Scheme deserialize_raises_mut := Minimality for deserialize_raises Sort Prop
  with walk_raises_mut := Minimality for walk_raises Sort Prop.
Combined Scheme raises_mutind from deserialize_raises_mut, walk_raises_mut.

(** A declared type for which [deserialize_val] gives [None] for [None]:
    an optional, [Any], a mapping without parameters, [str], a type that
    the dispatch passes through, a class that is not declarative. *)
Definition passes_None (t : ty) : bool :=
  match t with
  | TUnion _ => _is_optional t
  | TClass c => negb (has c)
  | TDict None => true
  | TDict (Some _) | TIter _ _ => false
  | TNoneType | TAny | TStr | TLeaf _ => true
  end.

(* ================================================================= *)
(** * Properties *)

Unset Implicit Arguments.

(** ** The error monad *)

Lemma bind_Ok {A B} (r : result A) (k : A -> result B) (y : B) :
  bind r k = Ok y -> exists x, r = Ok x /\ k x = Ok y.
Proof.
  destruct r as [x | e]; simpl; intros H; [eauto | discriminate].
Qed.

Lemma bind_Error {A B} (r : result A) (k : A -> result B) (e : exn) :
  bind r k = Error e ->
  r = Error e \/ exists x, r = Ok x /\ k x = Error e.
Proof.
  destruct r as [x | e']; simpl; intros H; [eauto | left; congruence].
Qed.

Lemma mapM_ext {A B} (f g : A -> result B) (xs : list A) :
  (forall x, f x = g x) -> mapM f xs = mapM g xs.
Proof.
  intros E; induction xs as [| x xs IH]; simpl; [reflexivity |].
  now rewrite E, IH.
Qed.

(** ** Equations of [asdict] *)

Lemma attr_lookup_then_eq {R} (k : value -> result R) d n missing :
  attr_lookup_then k d n missing =
  match attr_lookup d n with
  | Some v => k v
  | None => missing
  end.
Proof.
  induction d as [| [k' v] d IH]; simpl; [reflexivity |].
  destruct (String.eqb k' n); [reflexivity | exact IH].
Qed.

Lemma getattr_then_eq {R} (k : value -> result R) inst n :
  getattr_then k inst n = bind (getattr inst n) k.
Proof.
  destruct inst; simpl; try reflexivity.
  rewrite attr_lookup_then_eq. now destruct (attr_lookup d n).
Qed.

Lemma bind_ext {A B} (r r' : result A) (k k' : A -> result B) :
  r = r' -> (forall x, k x = k' x) -> bind r k = bind r' k'.
Proof.
  intros -> E. destruct r'; simpl; [apply E | reflexivity].
Qed.

#[local] Arguments getattr_then : simpl never.

Lemma asdict_eq inst recurse filter retain :
  asdict inst recurse filter retain =
  attrs <- fields (class_of inst) ;;
  asdict_loop inst recurse filter retain attrs [].
Proof.
  destruct inst; try reflexivity.
  simpl. destruct (fields c) as [attrs | e]; simpl; [| reflexivity].
  match goal with
  | |- ?loop attrs [] = _ =>
      enough (forall rv, loop attrs rv =
                         asdict_loop (VInst c d) recurse filter retain attrs rv)
        as H by apply H
  end.
  induction attrs as [| a attrs IH]; intros rv; [reflexivity |].
  cbn [asdict_loop]. rewrite getattr_then_eq.
  apply bind_ext; [reflexivity | intros v].
  apply bind_ext; [reflexivity | intros keep].
  destruct keep; cbn [negb]; [| apply IH].
  apply bind_ext; [| intros x; apply IH].
  unfold asdict_value. destruct recurse; [| reflexivity].
  destruct (has (class_of v)); [reflexivity |].
  destruct v; reflexivity.
Qed.

(** ** Equations of [_fromdict] and [deserialize_val] *)

Section FromdictEquations.
Variables (recurse ignore_missing : bool).
Variable rename : string -> string.
Variable union_discriminator : discriminator_t.

Abbreviation _fromdict' :=
  (_fromdict recurse ignore_missing rename union_discriminator).
Abbreviation deserialize_val' :=
  (deserialize_val recurse ignore_missing rename union_discriminator).
Abbreviation fromdict_loop' :=
  (fromdict_loop recurse ignore_missing rename union_discriminator).
Abbreviation dispatch' :=
  (dispatch recurse ignore_missing rename union_discriminator).

Lemma _fromdict_S n c dct context :
  _fromdict' (S n) c dct context =
  attrs <- fields c ;;
  cons <- fromdict_loop' n dct context attrs [] ;;
  construct c cons.
Proof.
  simpl. apply bind_ext; [reflexivity | intros attrs].
  apply bind_ext; [| reflexivity].
  generalize (@nil (value * value)).
  induction attrs as [| a attrs IH]; intros cons; [reflexivity |].
  simpl. apply bind_ext; [reflexivity | intros val].
  apply bind_ext; [reflexivity | intros x]. apply IH.
Qed.

Lemma deserialize_val_S n context key_name a typ name :
  deserialize_val' (S n) context key_name a typ name =
  reraise_TypeError a typ (dotted context key_name)
                    (dispatch' n context key_name a typ name).
Proof.
  simpl. f_equal. destruct typ as [| | | | | | [[kg vg] |] |]; try reflexivity.
  simpl. apply bind_ext; [reflexivity | intros kvs].
  generalize (@nil (value * value)).
  induction kvs as [| [k v] kvs IH]; intros acc; [reflexivity |].
  simpl. repeat (apply bind_ext; [reflexivity | intros ?]). apply IH.
Qed.
End FromdictEquations.

(** ** Dictionaries with string keys *)

Lemma py_eq_VStr k n : py_eq k (VStr n) = true -> k = VStr n.
Proof.
  destruct k as [| | | | | | | | [[] ? | ? ?] ?]; simpl; try discriminate.
  intros H. apply String.eqb_eq in H. now subst.
Qed.

Lemma dict_lookup_store_str d a v b :
  dict_lookup (dict_store d (VStr a) v) (VStr b) =
  if String.eqb a b then Some v else dict_lookup d (VStr b).
Proof.
  induction d as [| [k0 v0] d IH]; simpl; [reflexivity |].
  destruct (py_eq k0 (VStr a)) eqn:Ea; simpl.
  - apply py_eq_VStr in Ea. subst k0. simpl.
    now destruct (String.eqb a b).
  - rewrite IH. destruct (py_eq k0 (VStr b)) eqn:Eb; [| reflexivity].
    apply py_eq_VStr in Eb. subst k0. simpl in Ea.
    rewrite String.eqb_sym in Ea. now rewrite Ea.
Qed.

Lemma dict_setitem_str d n v :
  dict_setitem d (VStr n) v = Ok (dict_store d (VStr n) v).
Proof. reflexivity. Qed.

(** ** What [asdict] stores for a field *)

Lemma asdict_loop_dict inst r f rt attrs rv x :
  asdict_loop inst r f rt attrs rv = Ok x -> exists rv', x = VDict rv'.
Proof.
  revert rv. induction attrs as [| a attrs IH]; intros rv; simpl.
  - intros [= <-]. eauto.
  - intros H.
    apply bind_Ok in H as (v & _ & H).
    apply bind_Ok in H as (keep & _ & H).
    destruct (negb keep); [now apply IH in H |].
    apply bind_Ok in H as (y & _ & H). now apply IH in H.
Qed.

Lemma asdict_dict inst r f rt x :
  asdict inst r f rt = Ok x -> exists rv, x = VDict rv.
Proof.
  rewrite asdict_eq. intros H. apply bind_Ok in H as (attrs & _ & H).
  now apply asdict_loop_dict in H.
Qed.

(** An entry that holds the conversion of the field's value stays so. *)
Lemma asdict_loop_keeps inst r f rt attrs rv rv' n v x :
  getattr inst n = Ok v ->
  asdict_value r f rt v = Ok x ->
  dict_lookup rv (VStr n) = Some x ->
  asdict_loop inst r f rt attrs rv = Ok (VDict rv') ->
  dict_lookup rv' (VStr n) = Some x.
Proof.
  intros Hv Hx. revert rv.
  induction attrs as [| a attrs IH]; intros rv Hrv; simpl.
  - now intros [= <-].
  - intros H.
    apply bind_Ok in H as (v0 & Hv0 & H).
    apply bind_Ok in H as (keep & _ & H).
    destruct (negb keep); [now apply IH in H |].
    apply bind_Ok in H as (x0 & Hx0 & H). simpl in H.
    apply IH in H; [exact H |].
    rewrite dict_lookup_store_str.
    destruct (String.eqb (name a) n) eqn:E; [| exact Hrv].
    apply String.eqb_eq in E. subst n. congruence.
Qed.

(** A field that the filter keeps is stored under its name, converted by
    [asdict_value]. *)
Lemma asdict_loop_stored inst r f rt attrs rv rv' a v :
  asdict_loop inst r f rt attrs rv = Ok (VDict rv') ->
  In a attrs ->
  getattr inst (name a) = Ok v ->
  keeps f a v = Ok true ->
  exists x, asdict_value r f rt v = Ok x /\
            dict_lookup rv' (VStr (name a)) = Some x.
Proof.
  intros H Hin Hv Hk. revert rv H.
  induction attrs as [| a0 attrs IH]; intros rv H; [destruct Hin |].
  simpl in H.
  apply bind_Ok in H as (v0 & Hv0 & H).
  apply bind_Ok in H as (keep & Hk0 & H).
  destruct Hin as [-> | Hin].
  - rewrite Hv in Hv0. injection Hv0 as <-.
    rewrite Hk in Hk0. injection Hk0 as <-. simpl in H.
    apply bind_Ok in H as (x & Hx & H). simpl in H.
    exists x. split; [exact Hx |].
    eapply asdict_loop_keeps; [exact Hv | exact Hx | | exact H].
    rewrite dict_lookup_store_str. now rewrite String.eqb_refl.
  - destruct (negb keep); [now apply IH in H |].
    apply bind_Ok in H as (x0 & _ & H). simpl in H. now apply IH in H.
Qed.

Lemma asdict_stored inst r f rt attrs a v x :
  fields (class_of inst) = Ok attrs ->
  In a attrs ->
  getattr inst (name a) = Ok v ->
  keeps f a v = Ok true ->
  asdict inst r f rt = Ok x ->
  exists rv y, x = VDict rv /\ asdict_value r f rt v = Ok y /\
               dict_lookup rv (VStr (name a)) = Some y.
Proof.
  intros Hf Hin Hv Hk H. rewrite asdict_eq, Hf in H. simpl in H.
  destruct (asdict_loop_dict _ _ _ _ _ _ _ H) as [rv ->].
  destruct (asdict_loop_stored _ _ _ _ _ _ _ _ _ H Hin Hv Hk) as (y & Hy & Hl).
  eauto.
Qed.

Lemma mapM_In {A B} (f : A -> result B) xs ys x :
  mapM f xs = Ok ys -> In x xs -> exists y, f x = Ok y /\ In y ys.
Proof.
  revert ys. induction xs as [| x0 xs IH]; intros ys H Hin; [destruct Hin |].
  simpl in H. apply bind_Ok in H as (y0 & Hy0 & H).
  apply bind_Ok in H as (ys' & Hys & H). injection H as <-.
  destruct Hin as [-> | Hin].
  - exists y0. split; [exact Hy0 | now left].
  - destruct (IH _ Hys Hin) as (y & Hy & Hin'). exists y. split; [exact Hy | now right].
Qed.

Lemma mapM_same {A} (f : A -> result A) xs :
  (forall x, In x xs -> f x = Ok x) -> mapM f xs = Ok xs.
Proof.
  induction xs as [| x xs IH]; intros H; simpl; [reflexivity |].
  rewrite (H x) by now left. simpl. rewrite IH; [reflexivity |].
  intros y Hy. apply H. now right.
Qed.

Lemma set_of_list_hashable acc ys :
  forallb hashable ys = true -> exists zs, set_of_list acc ys = Ok zs.
Proof.
  revert acc. induction ys as [| y ys IH]; intros acc H; simpl; [eauto |].
  simpl in H. apply andb_true_iff in H as [-> H]. now apply IH.
Qed.

Lemma set_of_list_unhashable acc ys y :
  In y ys -> hashable y = false ->
  exists y', In y' ys /\ hashable y' = false /\
             set_of_list acc ys = Error (unhashable y').
Proof.
  revert acc. induction ys as [| y0 ys IH]; intros acc Hin Hy; [destruct Hin |].
  simpl. destruct (hashable y0) eqn:E.
  - destruct Hin as [-> | Hin]; [congruence |].
    destruct (IH (set_add acc y0) Hin Hy) as (y' & Hin' & Hy' & H).
    exists y'. split; [now right | now split].
  - exists y0. split; [now left | now split].
Qed.

Lemma asdict_loop_app inst r f rt pre post rv rv' :
  asdict_loop inst r f rt pre rv = Ok (VDict rv') ->
  asdict_loop inst r f rt (pre ++ post)%list rv
  = asdict_loop inst r f rt post rv'.
Proof.
  revert rv. induction pre as [| a pre IH]; intros rv; simpl.
  - now intros [= <-].
  - intros H.
    destruct (getattr inst (name a)) as [v |]; [| discriminate]. simpl in *.
    destruct (keeps f a v) as [keep |]; [| discriminate]. simpl in *.
    destruct (negb keep); [now apply IH |].
    destruct (asdict_value r f rt v); [| discriminate]. simpl in *.
    now apply IH.
Qed.

Lemma asdict_field_error inst r f rt attrs pre a post rv v e :
  fields (class_of inst) = Ok attrs ->
  attrs = (pre ++ a :: post)%list ->
  asdict_loop inst r f rt pre [] = Ok (VDict rv) ->
  getattr inst (name a) = Ok v ->
  keeps f a v = Ok true ->
  asdict_value r f rt v = Error e ->
  asdict inst r f rt = Error e.
Proof.
  intros Hf -> Hpre Hv Hk He.
  rewrite asdict_eq, Hf. simpl.
  rewrite (asdict_loop_app _ _ _ _ _ _ _ _ Hpre). simpl.
  rewrite Hv. simpl. rewrite Hk. simpl. now rewrite He.
Qed.

Lemma asdict_value_sequence filter retain v b xs :
  as_sequence v = Some (b, xs) ->
  asdict_value true filter retain v
  = ys <- mapM (asdict_item filter) xs ;;
    construct_container (if retain then container_of v else mk_list) ys.
Proof.
  destruct v; simpl; try discriminate; intros [= <- <-]; reflexivity.
Qed.

Lemma construct_container_class v b xs ys y :
  as_sequence v = Some (b, xs) ->
  construct_container (container_of v) ys = Ok y ->
  class_of y = class_of v.
Proof.
  destruct v as [| | | l | l | l | its | c d | sub l];
    simpl; try discriminate; intros _ H;
    try (injection H as <-; reflexivity).
  - apply bind_Ok in H as (zs & _ & H). now injection H as <-.
  - destruct sub as [b0 n | n fs].
    + destruct b0; simpl in H; try (injection H as <-; reflexivity).
      apply bind_Ok in H as (zs & _ & H). now injection H as <-.
    + destruct fs as [| f [| g fs]]; simpl in H;
        try discriminate; now injection H as <-.
Qed.

(* ================================================================= *)
(** ** has *)

(** C9.  [has] answers true exactly for the classes that carry the
    [__attrs_attrs__] slot, also when the field sequence in it is empty,
    and false for every other class.  It is a total function of the class:
    it raises for no class and touches no state. *)
Theorem has_spec (c : cls) :
  (has c = true <-> exists attrs, __attrs_attrs__ c = Some attrs) /\
  (has c = false <-> __attrs_attrs__ c = None) /\
  has (Cls (cls_name c) (Some [])) = true.
Proof.
  unfold has. destruct c as [n [attrs |]]; simpl; repeat split;
    try discriminate; try reflexivity; eauto.
  intros [attrs H]. discriminate.
Qed.

Lemma has_spec_witness :
  has Empty = true /\ has C = true /\ has object = false.
Proof.
  split; [| split].
  - apply (proj1 (has_spec Empty)). now exists [].
  - apply (proj1 (has_spec C)). now eexists.
  - now apply (proj1 (proj2 (has_spec object))).
Defined.

(* ================================================================= *)
(** ** asdict: strings, collections and the filter *)

(** C10.  A field whose value is a string is stored as that string,
    whatever [retain_collection_types] is: the conversion of the value
    is the string itself, as is the conversion of a string inside a
    sequence, and the mapping that [asdict] returns holds the string under
    the field's name. *)
Theorem asdict_string_is_leaf inst filter retain attrs a s :
  fields (class_of inst) = Ok attrs ->
  In a attrs ->
  getattr inst (name a) = Ok (VStr s) ->
  keeps filter a (VStr s) = Ok true ->
  asdict_value true filter retain (VStr s) = Ok (VStr s) /\
  asdict_item filter (VStr s) = Ok (VStr s) /\
  forall r, asdict inst true filter retain = Ok r ->
    exists rv, r = VDict rv /\
               dict_lookup rv (VStr (name a)) = Some (VStr s).
Proof.
  intros Hf Hin Hv Hk. repeat split.
  intros r H.
  destruct (asdict_stored _ _ _ _ _ _ _ _ Hf Hin Hv Hk H) as (rv & y & -> & Hy & Hl).
  injection Hy as <-. eauto.
Qed.

Lemma asdict_string_is_leaf_witness :
  exists rv,
    asdict (C_ (VInt 1) (VStr "ab")) true None true = Ok (VDict rv) /\
    dict_lookup rv (VStr "y") = Some (VStr "ab").
Proof.
  assert (Hin : In (Attribute "y" None)
                   [Attribute "x" None; Attribute "y" None])
    by (right; left; reflexivity).
  destruct (@asdict_string_is_leaf (C_ (VInt 1) (VStr "ab")) None true
              _ _ "ab" eq_refl Hin eq_refl eq_refl) as (_ & _ & H).
  destruct (H _ eq_refl) as (rv & E & L).
  exists rv. split; [now rewrite <- E | exact L].
Defined.

(** C8, as the code has it.  For a field that holds an instance of
    [tuple], [list] or [set], a subclass included, and that the filter
    keeps: when [asdict] with [recurse] returns, the field is stored as a
    container of the class of the original if [retain_collection_types]
    is set, and as a list if it is not.  The container is built by calling
    that class with the list of the converted elements.  For [list],
    [tuple] and a plain subclass of them the call gives the container of
    the converted elements, and so does [list] without
    [retain_collection_types].  For a namedtuple it raises a [TypeError]
    unless the namedtuple has one field, which then holds the whole list.
    For a set that has a declaratively attributed instance among its
    elements it raises a [TypeError], the converted element being an
    unhashable dict; a set of hashable elements that are no such
    instances is stored as a set.  An error of the call ends [asdict]
    with that error. *)
Theorem asdict_collection_type inst filter (retain : bool) attrs a v b xs :
  fields (class_of inst) = Ok attrs ->
  In a attrs ->
  getattr inst (name a) = Ok v ->
  keeps filter a v = Ok true ->
  as_sequence v = Some (b, xs) ->
  (forall r, asdict inst true filter retain = Ok r ->
     exists rv y, r = VDict rv /\
       dict_lookup rv (VStr (name a)) = Some y /\
       class_of y = class_of (if retain then v else VList [])) /\
  (forall ys, mapM (asdict_item filter) xs = Ok ys ->
     (retain = false \/ v = VList xs ->
        asdict_value true filter retain v = Ok (VList ys)) /\
     (retain = true -> v = VTuple xs ->
        asdict_value true filter retain v = Ok (VTuple ys)) /\
     (forall n, retain = true -> v = VSub (Subclass b n) xs ->
        b <> base_set ->
        asdict_value true filter retain v = Ok (VSub (Subclass b n) ys)) /\
     (forall n field_names,
        retain = true -> v = VSub (NamedTuple n field_names) xs ->
        asdict_value true filter retain v
        = match field_names with
          | [f] => Ok (VSub (NamedTuple n [f]) [VList ys])
          | _ => Error (namedtuple_arity field_names)
          end) /\
     (retain = true ->
        v = VSet xs \/ (exists n, v = VSub (Subclass base_set n) xs) ->
        (exists i, In i xs /\ has (class_of i) = true) ->
        exists y, In y ys /\ hashable y = false /\
          asdict_value true filter retain v = Error (unhashable y))) /\
  (retain = true ->
     v = VSet xs \/ (exists n, v = VSub (Subclass base_set n) xs) ->
     forallb (fun i => negb (has (class_of i)) && hashable i) xs = true ->
     exists zs,
       asdict_value true filter retain v
       = Ok (match v with VSub sub _ => VSub sub zs | _ => VSet zs end)) /\
  (forall e pre post rv,
     attrs = (pre ++ a :: post)%list ->
     asdict_loop inst true filter retain pre [] = Ok (VDict rv) ->
     asdict_value true filter retain v = Error e ->
     asdict inst true filter retain = Error e).
Proof.
  intros Hf Hin Hv Hk Hseq.
  assert (Hval := asdict_value_sequence filter retain v b xs Hseq).
  split; [| split; [| split]].
  - intros r H.
    destruct (asdict_stored _ _ _ _ _ _ _ _ Hf Hin Hv Hk H) as (rv & y & -> & Hy & Hl).
    exists rv, y. repeat split; [exact Hl |].
    rewrite Hval in Hy. apply bind_Ok in Hy as (ys & _ & Hy).
    destruct retain.
    + exact (construct_container_class _ _ _ _ _ Hseq Hy).
    + now injection Hy as <-.
  - intros ys Hys. rewrite Hval, Hys. cbn [bind].
    split; [| split; [| split; [| split]]].
    + intros [-> | ->]; [| destruct retain]; reflexivity.
    + intros -> ->. reflexivity.
    + intros n -> -> Hb. destruct b; try reflexivity. now destruct Hb.
    + intros n field_names -> ->.
      destruct field_names as [| f [| g fs]]; reflexivity.
    + intros -> Hset (i & Hi & Hhas).
      destruct (mapM_In _ _ _ _ Hys Hi) as (yi & Hyi & Hin').
      unfold asdict_item in Hyi. rewrite Hhas in Hyi.
      apply asdict_dict in Hyi as [d ->].
      destruct (set_of_list_unhashable [] _ _ Hin' eq_refl)
        as (y & Hy & Hhash & He).
      exists y. split; [exact Hy | split; [exact Hhash |]].
      destruct Hset as [-> | [n ->]]; simpl; now rewrite He.
  - intros -> Hset Hall. rewrite Hval.
    rewrite forallb_forall in Hall.
    rewrite (mapM_same (asdict_item filter) xs).
    + destruct (set_of_list_hashable [] xs) as [zs Hzs].
      * apply forallb_forall. intros i Hi.
        apply Hall in Hi. now apply andb_true_iff in Hi.
      * exists zs. destruct Hset as [-> | [n ->]]; simpl; now rewrite Hzs.
    + intros i Hi. apply Hall in Hi. apply andb_true_iff in Hi as [Hi _].
      unfold asdict_item. now destruct (has (class_of i)).
  - intros e pre post rv Hattrs Hpre He.
    exact (asdict_field_error _ _ _ _ _ _ _ _ _ _ _ Hf Hattrs Hpre Hv Hk He).
Qed.

Lemma asdict_collection_type_witness :
  asdict_value true None true
    (VSub (NamedTuple "P" ["p"; "q"]) [C_ (VInt 2) (VInt 3); VStr "a"])
  = Error (TypeError
             (Msg "__new__() missing 1 required positional argument: 'q'")) /\
  asdict (C_ (VInt 1)
             (VSub (NamedTuple "P" ["p"; "q"])
                   [C_ (VInt 2) (VInt 3); VStr "a"])) true None true
  = Error (TypeError
             (Msg "__new__() missing 1 required positional argument: 'q'")) /\
  asdict_value true None true (VTuple [C_ (VInt 2) (VInt 3); VStr "a"])
  = Ok (VTuple [VDict [(VStr "x", VInt 2); (VStr "y", VInt 3)]; VStr "a"]) /\
  asdict (C_ (VInt 1) (VSet [C_ (VInt 2) (VInt 3)])) true None true
  = Error (TypeError (Msg "unhashable type: 'dict'")).
Proof.
  assert (Hin : In (Attribute "y" None)
                   [Attribute "x" None; Attribute "y" None])
    by (right; left; reflexivity).
  destruct (@asdict_collection_type
              (C_ (VInt 1)
                  (VSub (NamedTuple "P" ["p"; "q"])
                        [C_ (VInt 2) (VInt 3); VStr "a"]))
              None true _ _ _ base_tuple [C_ (VInt 2) (VInt 3); VStr "a"]
              eq_refl Hin eq_refl eq_refl eq_refl)
    as (_ & H & _ & Hcall).
  destruct (H _ eq_refl) as (_ & _ & _ & Hnamed & _).
  assert (E := Hnamed "P" ["p"; "q"] eq_refl eq_refl).
  split; [exact E | split; [| split]].
  - exact (Hcall _ [Attribute "x" None] [] [(VStr "x", VInt 1)]
                 eq_refl eq_refl E).
  - destruct (@asdict_collection_type
                (C_ (VInt 1) (VTuple [C_ (VInt 2) (VInt 3); VStr "a"]))
                None true _ _ _ base_tuple [C_ (VInt 2) (VInt 3); VStr "a"]
                eq_refl Hin eq_refl eq_refl eq_refl)
      as (_ & H' & _).
    destruct (H' _ eq_refl) as (_ & Htuple & _).
    exact (Htuple eq_refl eq_refl).
  - destruct (@asdict_collection_type
                (C_ (VInt 1) (VSet [C_ (VInt 2) (VInt 3)]))
                None true _ _ _ base_set [C_ (VInt 2) (VInt 3)]
                eq_refl Hin eq_refl eq_refl eq_refl)
      as (_ & H' & _ & Hcall').
    destruct (H' _ eq_refl) as (_ & _ & _ & _ & Hset).
    destruct (Hset eq_refl (or_introl eq_refl)
                   (ex_intro _ (C_ (VInt 2) (VInt 3))
                             (conj (or_introl eq_refl) eq_refl)))
      as (y & [<- | []] & _ & E').
    exact (Hcall' _ [Attribute "x" None] [] [(VStr "x", VInt 1)]
                  eq_refl eq_refl E').
Defined.

(** A set of instances, with [retain_collection_types]: the call raises,
    and the field is not stored as a set. *)
Lemma asdict_retained_set_of_instances_raises :
  asdict (One_ TAny (VSet [C_ (VInt 1) (VInt 2)])) true None true
  = Error (unhashable (VDict [(VStr "x", VInt 1); (VStr "y", VInt 2)])) /\
  ~ (exists rv y,
       asdict (One_ TAny (VSet [C_ (VInt 1) (VInt 2)])) true None true
       = Ok (VDict rv) /\
       dict_lookup rv (VStr "x") = Some y /\ class_of y = Cls "set" None).
Proof.
  split; [reflexivity |].
  intros (rv & y & H & _). discriminate.
Qed.

(** C2, at a mapping.  What [asdict] stores for a mapping-valued field does
    not depend on the filter: the instances among the keys and the values
    of the mapping are converted with all their fields.  With the filter
    [lambda a, v: a.name != "x"], [C(1, {"a": C(4, 5)})] keeps the [x] of
    the inner instance, where [C(1, [C(4, 5)])] drops it. *)
Theorem asdict_mapping_ignores_filter :
  (forall f g retain items,
     asdict_value true f retain (VDict items)
     = asdict_value true g retain (VDict items)) /\
  asdict (C_ (VInt 1) (VDict [(VStr "a", C_ (VInt 4) (VInt 5))]))
         true (Some (name_is_not "x")) false
  = Ok (VDict [(VStr "y",
                VDict [(VStr "a",
                        VDict [(VStr "x", VInt 4); (VStr "y", VInt 5)])])]) /\
  asdict (C_ (VInt 1) (VList [C_ (VInt 4) (VInt 5)]))
         true (Some (name_is_not "x")) false
  = Ok (VDict [(VStr "y", VList [VDict [(VStr "y", VInt 5)]])]).
Proof.
  split; [intros; reflexivity | split; reflexivity].
Qed.

(* ================================================================= *)
(** ** The round trip without recursion *)

Lemma mapM_map {A B} (f : A -> result B) (g : A -> B) xs :
  (forall x, In x xs -> f x = Ok (g x)) -> mapM f xs = Ok (map g xs).
Proof.
  induction xs as [| x xs IH]; intros H; simpl; [reflexivity |].
  rewrite (H x) by now left. simpl. rewrite IH; [reflexivity |].
  intros y Hy. apply H. now right.
Qed.

Lemma asdict_loop_shallow c d retain attrs rv :
  (forall a, In a attrs -> attr_lookup d (name a) <> None) ->
  asdict_loop (VInst c d) false None retain attrs rv
  = Ok (VDict (store_fields d attrs rv)).
Proof.
  revert rv. induction attrs as [| a attrs IH]; intros rv H; [reflexivity |].
  simpl. unfold attr_value.
  destruct (attr_lookup d (name a)) as [v |] eqn:E.
  - simpl. apply IH. intros a' Ha'. apply H. now right.
  - exfalso. apply (H a); [now left | exact E].
Qed.

Lemma store_fields_keeps d attrs rv n :
  dict_lookup rv (VStr n) = Some (attr_value d n) ->
  dict_lookup (store_fields d attrs rv) (VStr n) = Some (attr_value d n).
Proof.
  revert rv. induction attrs as [| a attrs IH]; intros rv H; [exact H |].
  simpl. apply IH. rewrite dict_lookup_store_str.
  destruct (String.eqb (name a) n) eqn:E; [| exact H].
  apply String.eqb_eq in E. now subst n.
Qed.

Lemma store_fields_lookup d attrs rv a :
  In a attrs ->
  dict_lookup (store_fields d attrs rv) (VStr (name a))
  = Some (attr_value d (name a)).
Proof.
  revert rv. induction attrs as [| a0 attrs IH]; intros rv Hin; [destruct Hin |].
  simpl. destruct Hin as [-> | Hin]; [| now apply IH].
  apply store_fields_keeps. rewrite dict_lookup_store_str.
  now rewrite String.eqb_refl.
Qed.

Lemma dict_store_keys d k v kv :
  In kv (dict_store d k v) -> fst kv = k \/ exists kv', In kv' d /\ fst kv = fst kv'.
Proof.
  induction d as [| [k0 v0] d IH]; simpl.
  - intros [<- | []]. now left.
  - destruct (py_eq k0 k) eqn:E; simpl.
    + intros [<- | H]; right; [exists (k0, v0) | exists kv]; auto.
    + intros [<- | H].
      * right. exists (k0, v0). auto.
      * destruct (IH H) as [-> | (kv' & Hin & Hk)]; [now left |].
        right. exists kv'. auto.
Qed.

Lemma store_fields_keys d attrs rv kv :
  In kv (store_fields d attrs rv) ->
  (exists a, In a attrs /\ fst kv = VStr (name a)) \/
  (exists kv', In kv' rv /\ fst kv = fst kv').
Proof.
  revert rv. induction attrs as [| a attrs IH]; intros rv H.
  - right. exists kv. auto.
  - simpl in H. destruct (IH _ H) as [(a' & Ha' & E) | (kv' & Hin & E)].
    + left. exists a'. split; [now right | exact E].
    + destruct (dict_store_keys _ _ _ _ Hin) as [E' | (kv'' & Hin' & E')].
      * left. exists a. split; [now left | congruence].
      * right. exists kv''. split; [exact Hin' | congruence].
Qed.

Lemma attr_lookup_map (g : string -> value) attrs a :
  In a attrs ->
  attr_lookup (map (fun a => (name a, g (name a))) attrs) (name a)
  = Some (g (name a)).
Proof.
  induction attrs as [| a0 attrs IH]; intros Hin; [destruct Hin |].
  simpl. destruct (String.eqb (name a0) (name a)) eqn:E.
  - apply String.eqb_eq in E. now rewrite E.
  - destruct Hin as [-> | Hin]; [| now apply IH].
    now rewrite String.eqb_refl in E.
Qed.

Section Shallow.
Variables (ignore_missing : bool) (ud : discriminator_t).

Lemma fromdict_loop_shallow n d rv context attrs cons :
  (forall a, In a attrs ->
     dict_lookup rv (VStr (name a)) = Some (attr_value d (name a))) ->
  fromdict_loop false ignore_missing rename_default ud n (VDict rv)
                context attrs cons
  = Ok (store_fields d attrs cons).
Proof.
  revert cons. induction attrs as [| a attrs IH]; intros cons H; [reflexivity |].
  simpl. unfold raw_value, rename_default. simpl.
  rewrite (H a) by now left.
  assert (IH' := fun cons => IH cons (fun a' Ha' => H a' (or_intror Ha'))).
  destruct ignore_missing; simpl; apply IH'.
Qed.

Lemma construct_store_fields c d attrs :
  __attrs_attrs__ c = Some attrs ->
  construct c (store_fields d attrs [])
  = Ok (VInst c (map (fun a => (name a, attr_value d (name a))) attrs)).
Proof.
  intros Hc. unfold construct. rewrite Hc.
  rewrite (mapM_map _ (fun a => (name a, attr_value d (name a)))).
  - simpl.
    replace (forallb _ _) with true; [reflexivity |].
    symmetry. apply forallb_forall. intros kv Hkv.
    apply store_fields_keys in Hkv as [(a & Ha & E) | (kv' & [] & _)].
    apply existsb_exists. exists a. split; [exact Ha |].
    rewrite E. simpl. apply String.eqb_refl.
  - intros a Ha. now rewrite store_fields_lookup.
Qed.
End Shallow.

(** C1.  Without recursion on both sides the round trip gives back an
    equal instance: for an instance [x] that has a value for each field of
    its class, [asdict(x, recurse=False)] returns a mapping from which
    [fromdict(type(x), ..., recurse=False)] constructs an instance equal to
    [x].  And [asdict(C(1, 2))] is [{"x": 1, "y": 2}], from which
    [fromdict(C, ...)] constructs [C(1, 2)]. *)
Theorem roundtrip_without_recursion c d attrs retain ignore_missing ud n :
  __attrs_attrs__ c = Some attrs ->
  (forall a, In a attrs -> attr_lookup d (name a) <> None) ->
  (exists rv y,
     asdict (VInst c d) false None retain = Ok (VDict rv) /\
     fromdict false ignore_missing rename_default ud (S n) c (VDict rv) = Ok y /\
     instances_equal (VInst c d) y) /\
  asdict (C_ (VInt 1) (VInt 2)) true None false
  = Ok (VDict [(VStr "x", VInt 1); (VStr "y", VInt 2)]) /\
  fromdict true false rename_default union_discriminator_default (S n) C
           (VDict [(VStr "x", VInt 1); (VStr "y", VInt 2)])
  = Ok (C_ (VInt 1) (VInt 2)).
Proof.
  intros Hc Hd. split; [| split; reflexivity].
  exists (store_fields d attrs []),
         (VInst c (map (fun a => (name a, attr_value d (name a))) attrs)).
  assert (Hf : fields c = Ok attrs) by (unfold fields; now rewrite Hc).
  split; [| split].
  - rewrite asdict_eq. simpl. rewrite Hf. simpl.
    now apply asdict_loop_shallow.
  - unfold fromdict. rewrite _fromdict_S, Hf. simpl.
    rewrite (fromdict_loop_shallow _ _ _ d).
    + simpl. now apply construct_store_fields.
    + intros a Ha. now apply store_fields_lookup.
  - split; [reflexivity |]. simpl. rewrite Hf. intros ? [= <-].
    apply map_ext_in. intros a Ha. simpl.
    rewrite attr_lookup_map by exact Ha.
    unfold attr_value. destruct (attr_lookup d (name a)) eqn:E; [reflexivity |].
    now destruct (Hd a Ha).
Qed.

Lemma roundtrip_without_recursion_witness :
  exists rv y,
    asdict (C_ (VInt 1) (VInt 2)) false None false = Ok (VDict rv) /\
    fromdict false false rename_default union_discriminator_default 1 C
             (VDict rv) = Ok y /\
    instances_equal (C_ (VInt 1) (VInt 2)) y.
Proof.
  apply (roundtrip_without_recursion
           C [("x", VInt 1); ("y", VInt 2)] _ false false
           union_discriminator_default 0 eq_refl).
  intros a [<- | [<- | []]]; discriminate.
Defined.

(* ================================================================= *)
(** ** fromdict: missing keys *)

Lemma no_KeyError_bind {A B} (r : result A) (k : A -> result B) :
  no_KeyError r -> (forall x, no_KeyError (k x)) -> no_KeyError (bind r k).
Proof.
  intros Hr Hk key H. apply bind_Error in H as [H | (x & _ & H)].
  - exact (Hr key H).
  - exact (Hk x key H).
Qed.

Lemma no_KeyError_Ok {A} (x : A) : no_KeyError (Ok x).
Proof. intros k. discriminate. Qed.

Lemma no_KeyError_mapM {A B} (f : A -> result B) xs :
  (forall x, no_KeyError (f x)) -> no_KeyError (mapM f xs).
Proof.
  intros Hf. induction xs as [| x xs IH]; simpl; [apply no_KeyError_Ok |].
  apply no_KeyError_bind; [apply Hf | intros y].
  apply no_KeyError_bind; [exact IH | intros ys; apply no_KeyError_Ok].
Qed.

Lemma no_KeyError_reraise a typ context r :
  no_KeyError r -> no_KeyError (reraise_TypeError a typ context r).
Proof.
  intros H k. destruct r as [x | []]; simpl; try discriminate.
  intros E. exact (H k E).
Qed.

Lemma no_KeyError_dict_setitem d k v : no_KeyError (dict_setitem d k v).
Proof. intros key. unfold dict_setitem. destruct (hashable k); discriminate. Qed.

Lemma no_KeyError_set_of_list acc xs : no_KeyError (set_of_list acc xs).
Proof.
  revert acc. induction xs as [| x xs IH]; intros acc; simpl.
  - apply no_KeyError_Ok.
  - destruct (hashable x); [apply IH | intros k; discriminate].
Qed.

Lemma no_KeyError_construct_container cf xs :
  no_KeyError (construct_container cf xs).
Proof.
  assert (Hset : forall mk : list value -> value,
            no_KeyError (ys <- set_of_list [] xs ;; Ok (mk ys))).
  { intros mk. apply no_KeyError_bind; [apply no_KeyError_set_of_list |].
    intros; apply no_KeyError_Ok. }
  destruct cf as [| | | [[] n | n [| f [| g fs]]]]; simpl;
    try apply no_KeyError_Ok; try apply Hset; intros k; discriminate.
Qed.

Lemma no_KeyError_construct c cons : no_KeyError (construct c cons).
Proof.
  unfold construct. destruct (__attrs_attrs__ c) as [attrs |];
    [| intros k; discriminate].
  apply no_KeyError_bind.
  - apply no_KeyError_mapM. intros a k.
    destruct (dict_lookup cons (VStr (name a))); discriminate.
  - intros d k. destruct (forallb _ cons); discriminate.
Qed.

Lemma no_KeyError_iter a : no_KeyError (iter a).
Proof. intros k. destruct a; discriminate. Qed.

Lemma no_KeyError_items a : no_KeyError (items a).
Proof. intros k. destruct a; discriminate. Qed.

Lemma no_KeyError_dict_get dct key : no_KeyError (dict_get dct key).
Proof. intros k. destruct dct; discriminate. Qed.

Lemma no_KeyError_fields c : no_KeyError (fields c).
Proof. intros k. unfold fields. destruct (__attrs_attrs__ c); discriminate. Qed.

Lemma no_KeyError_Union_getitem ps : no_KeyError (Union_getitem ps).
Proof. intros k. destruct ps as [| ? [| ? ?]]; discriminate. Qed.

Section MissingKey.
Variables (recurse : bool) (rename : string -> string).
Variable ud : discriminator_t.

Lemma fromdict_loop_app im n dct context pre post cons :
  fromdict_loop recurse im rename ud n dct context (pre ++ post)%list cons =
  cons' <- fromdict_loop recurse im rename ud n dct context pre cons ;;
  fromdict_loop recurse im rename ud n dct context post cons'.
Proof.
  revert cons. induction pre as [| a pre IH]; intros cons; [reflexivity |].
  cbn [fromdict_loop app].
  destruct (raw_value im dct context (rename (name a))); [| reflexivity].
  cbn [bind]. destruct (field_value _ _ _ _ _ _ _ _); [| reflexivity].
  cbn [bind]. destruct (dict_setitem _ _ _); [| reflexivity].
  cbn [bind]. apply IH.
Qed.

(** A field whose key is absent makes the loop fail. *)
Lemma fromdict_loop_absent n d context attrs a cons :
  In a attrs ->
  dict_lookup d (VStr (rename (name a))) = None ->
  exists e,
    fromdict_loop recurse false rename ud n (VDict d) context attrs cons
    = Error e.
Proof.
  intros Hin Ha. revert cons.
  induction attrs as [| a0 attrs IH]; intros cons; [destruct Hin |].
  cbn [fromdict_loop]. destruct Hin as [-> | Hin].
  - unfold raw_value. simpl. rewrite Ha. simpl. eauto.
  - destruct (raw_value _ _ _ _); [| simpl; eauto].
    cbn [bind]. destruct (field_value _ _ _ _ _ _ _ _); [| simpl; eauto].
    cbn [bind]. destruct (dict_setitem _ _ _); [| simpl; eauto].
    cbn [bind]. now apply IH.
Qed.

(** With [ignore_missing], no call raises a missing-key error, unless
    the discriminator does. *)
Lemma ignore_missing_no_KeyError :
  (forall v t, no_KeyError (ud v t)) ->
  forall fuel,
    (forall c dct context,
       no_KeyError (_fromdict recurse true rename ud fuel c dct context)) /\
    (forall context key_name a typ name,
       no_KeyError (deserialize_val recurse true rename ud fuel
                                    context key_name a typ name)).
Proof.
  intros Hud. induction fuel as [| n [IHf IHd]].
  - split; intros; intros k; discriminate.
  - split.
    + intros c dct context. rewrite _fromdict_S.
      apply no_KeyError_bind; [apply no_KeyError_fields | intros attrs].
      apply no_KeyError_bind; [| intros; apply no_KeyError_construct].
      generalize (@nil (value * value)).
      induction attrs as [| a attrs IH]; intros cons; simpl;
        [apply no_KeyError_Ok |].
      apply no_KeyError_bind; [apply no_KeyError_dict_get | intros val].
      apply no_KeyError_bind; [| intros x].
      * unfold field_value. destruct recurse; [| apply no_KeyError_Ok].
        destruct (type a); [apply IHd | apply no_KeyError_Ok].
      * apply IH.
    + intros context key_name a typ name. rewrite deserialize_val_S.
      apply no_KeyError_reraise. unfold dispatch.
      destruct typ as [| | | | c | ps | [[kg vg] |] | tn [gen |]];
        try apply no_KeyError_Ok.
      * destruct (has c); [apply IHf | apply no_KeyError_Ok].
      * destruct (_is_optional (TUnion ps)).
        -- destruct a; try apply no_KeyError_Ok;
             (destruct (Nat.ltb 2 (List.length ps)); [| apply IHd];
              apply no_KeyError_bind;
              [apply no_KeyError_Union_getitem | intros; apply IHd]).
        -- apply no_KeyError_bind; [apply Hud | intros; apply IHd].
      * apply no_KeyError_bind; [apply no_KeyError_items | intros kvs].
        generalize (@nil (value * value)).
        induction kvs as [| [k v] kvs IH]; intros acc; simpl;
          [apply no_KeyError_Ok |].
        apply no_KeyError_bind; [apply IHd | intros k'].
        apply no_KeyError_bind; [apply IHd | intros v'].
        apply no_KeyError_bind; [apply no_KeyError_dict_setitem |].
        intros acc'. apply IH.
      * apply no_KeyError_bind; [apply no_KeyError_iter | intros xs].
        apply no_KeyError_bind;
          [apply no_KeyError_mapM; intros; apply IHd |].
        intros; apply no_KeyError_construct_container.
      * apply no_KeyError_bind; [apply no_KeyError_iter | intros xs].
        apply no_KeyError_construct_container.
Qed.
End MissingKey.

(** C3.  A field whose renamed key is absent from the source mapping.
    Without [ignore_missing] the call fails; when the walk reaches the
    field, that is when the fields before it were resolved, the failure is
    the missing-key error with the dotted path of the key in the context
    of the call.  With [ignore_missing] the raw value of the field is
    [None] and the walk goes on with it, and no call of [_fromdict] raises
    a missing-key error (an error that the discriminator raises apart).
    [None] is the value of the field when the field has no declared type,
    when [recurse] is off, and when the declared type gives [None] for
    [None].  But a field whose declared type is an iterable, a mapping
    with parameters or a declarative class with a field does not become
    [None]: the [None] is deserialized as that type, and the call fails
    with a type-mismatch error or an [AttributeError]; so does
    [fromdict(One, {}, ignore_missing=True)] for the class [One] with the
    field [x] of the type [List[int]]. *)
Theorem fromdict_missing_key recurse rename ud n c pre a post d context :
  fields c = Ok (pre ++ a :: post)%list ->
  dict_lookup d (VStr (rename (name a))) = None ->
  (exists e,
     _fromdict recurse false rename ud (S n) c (VDict d) context = Error e) /\
  (forall cons,
     fromdict_loop recurse false rename ud n (VDict d) context pre [] = Ok cons ->
     _fromdict recurse false rename ud (S n) c (VDict d) context
     = Error (KeyError (dotted context (rename (name a))))) /\
  raw_value true (VDict d) context (rename (name a)) = Ok VNone /\
  (forall cons,
     fromdict_loop recurse true rename ud n (VDict d) context pre [] = Ok cons ->
     _fromdict recurse true rename ud (S n) c (VDict d) context
     = x <- field_value recurse true rename ud n context a VNone ;;
       cons' <- dict_setitem cons (VStr (name a)) x ;;
       cons'' <- fromdict_loop recurse true rename ud n (VDict d) context
                               post cons' ;;
       construct c cons'') /\
  (recurse = false \/ type a = None ->
   field_value recurse true rename ud n context a VNone = Ok VNone) /\
  ((forall v t, no_KeyError (ud v t)) ->
   forall fuel c' dct context',
     no_KeyError (_fromdict recurse true rename ud fuel c' dct context')) /\
  (forall typ m,
     n = S m -> type a = Some typ -> passes_None typ = true ->
     field_value recurse true rename ud n context a VNone = Ok VNone) /\
  (forall m, n = S m -> recurse = true ->
     (forall type_name parameters,
        type a = Some (TIter type_name parameters) ->
        field_value recurse true rename ud n context a VNone
        = Error (TypeError
                   (Unable VNone (TIter type_name parameters)
                           (dotted context (rename (name a)))
                           (Msg "'NoneType' object is not iterable")))) /\
     (forall key_gen val_gen,
        type a = Some (TDict (Some (key_gen, val_gen))) ->
        field_value recurse true rename ud n context a VNone
        = Error (no_attribute VNone "items")) /\
     (forall c' b rest m',
        m = S m' -> type a = Some (TClass c') -> fields c' = Ok (b :: rest) ->
        field_value recurse true rename ud n context a VNone
        = Error (no_attribute VNone "get"))) /\
  fromdict true true rename_default union_discriminator_default 2
           (One (TIter "List" (Some (TLeaf "int")))) (VDict [])
  = Error (TypeError
             (Unable VNone (TIter "List" (Some (TLeaf "int"))) ".x"
                     (Msg "'NoneType' object is not iterable"))).
Proof.
  intros Hf Ha.
  assert (Hraw : forall im,
             raw_value im (VDict d) context (rename (name a))
             = if im then Ok VNone
               else Error (KeyError (dotted context (rename (name a))))).
  { intros im. unfold raw_value. simpl. rewrite Ha. now destruct im. }
  split; [| split; [| split; [| split; [| split; [| split; [| split;
    [| split]]]]]]].
  - rewrite _fromdict_S, Hf. simpl.
    destruct (fromdict_loop_absent recurse rename ud n d context
                (pre ++ a :: post)%list a []) as [e He]; [| exact Ha |].
    + apply in_or_app. right. now left.
    + rewrite He. simpl. eauto.
  - intros cons Hpre. rewrite _fromdict_S, Hf. simpl.
    rewrite fromdict_loop_app, Hpre. cbn [bind fromdict_loop].
    now rewrite Hraw.
  - apply (Hraw true).
  - intros cons Hpre. rewrite _fromdict_S, Hf. simpl.
    rewrite fromdict_loop_app, Hpre. cbn [bind fromdict_loop].
    rewrite Hraw. cbn [bind].
    now destruct (field_value _ _ _ _ _ _ _ _).
  - unfold field_value. intros [-> | ->]; [reflexivity |].
    now destruct recurse.
  - intros Hud fuel. apply ignore_missing_no_KeyError. exact Hud.
  - intros typ m -> Hty Hpass. unfold field_value. rewrite Hty.
    destruct recurse; [| reflexivity].
    rewrite deserialize_val_S. unfold dispatch.
    destruct typ as [| | | tn | c' | ps | [[kg vg] |] | tn params];
      simpl in Hpass; try discriminate; try reflexivity.
    + apply negb_true_iff in Hpass. now rewrite Hpass.
    + unfold _is_optional. now rewrite Hpass.
  - intros m -> ->. unfold field_value. split; [| split].
    + intros type_name parameters ->. rewrite deserialize_val_S.
      unfold dispatch. now destruct parameters.
    + intros key_gen val_gen ->. now rewrite deserialize_val_S.
    + intros c' b rest m' -> -> Hc'. rewrite deserialize_val_S.
      unfold dispatch.
      assert (Hhas : has c' = true).
      { unfold has. unfold fields in Hc'.
        now destruct (__attrs_attrs__ c'). }
      now rewrite Hhas, _fromdict_S, Hc'.
  - reflexivity.
Qed.

Lemma fromdict_missing_key_witness :
  _fromdict true false (fun s => s ++ "_") union_discriminator_default 1 C
            (VDict [(VStr "x_", VInt 1)]) ["p"; "q[]"]
  = Error (KeyError "p.q[].y_") /\
  _fromdict true true (fun s => s ++ "_") union_discriminator_default 1 C
            (VDict [(VStr "x_", VInt 1)]) ["p"; "q[]"]
  = Ok (C_ (VInt 1) VNone) /\
  _fromdict true true rename_default union_discriminator_default 2
            (One (TIter "List" (Some (TLeaf "int")))) (VDict []) ["p"]
  = Error (TypeError
             (Unable VNone (TIter "List" (Some (TLeaf "int"))) "p.x"
                     (Msg "'NoneType' object is not iterable"))).
Proof.
  destruct (fromdict_missing_key true (fun s => s ++ "_")
              union_discriminator_default 0 C
              [Attribute "x" None] (Attribute "y" None) []
              [(VStr "x_", VInt 1)] ["p"; "q[]"] eq_refl eq_refl)
    as (_ & Hfalse & _ & Htrue & _).
  destruct (fromdict_missing_key true rename_default
              union_discriminator_default 1
              (One (TIter "List" (Some (TLeaf "int"))))
              [] (Attribute "x" (Some (TIter "List" (Some (TLeaf "int")))))
              [] [] ["p"] eq_refl eq_refl)
    as (_ & _ & _ & Hwalk & _ & _ & _ & Htyped & _).
  split; [| split].
  - exact (Hfalse _ eq_refl).
  - rewrite (Htrue _ eq_refl). reflexivity.
  - rewrite (Hwalk _ eq_refl).
    destruct (Htyped 0 eq_refl eq_refl) as (Hiter & _).
    now rewrite (Hiter _ _ eq_refl).
Defined.

(* ================================================================= *)
(** ** fromdict: the dispatch on the declared type *)

Lemma reraise_TypeError_cases a typ context r :
  (forall reason, r = Error (TypeError reason) ->
     reraise_TypeError a typ context r
     = Error (TypeError (Unable a typ context reason))) /\
  (forall e, r = Error e -> is_TypeError e = false ->
     reraise_TypeError a typ context r = Error e) /\
  (forall v, r = Ok v -> reraise_TypeError a typ context r = Ok v).
Proof.
  repeat split.
  - now intros reason ->.
  - intros e -> He. now destruct e.
  - now intros v ->.
Qed.

(** Every [TypeError] that comes out of [deserialize_val] is its own. *)
Lemma deserialize_val_TypeError recurse im rename ud fuel
      context key_name a typ name m :
  deserialize_val recurse im rename ud fuel context key_name a typ name
  = Error (TypeError m) ->
  exists reason, m = Unable a typ (dotted context key_name) reason.
Proof.
  destruct fuel as [| n]; [discriminate |].
  rewrite deserialize_val_S.
  destruct (dispatch _ _ _ _ _ _ _ _ _ _) as [v | []]; simpl;
    try discriminate.
  intros [= <-]. eauto.
Qed.

(** C4, as the code has it.  [deserialize_val] catches the failures of the
    dispatch that are [TypeError]s, and those only: such a failure is
    raised again as the type-mismatch error of the value and the declared
    type of this call, the dotted path of the field that the enclosing
    field walk is at, and the message of the failure; any other failure
    leaves the call as it is.  So a [TypeError] that leaves
    [deserialize_val] is always the type-mismatch error of that call. *)
Theorem deserialize_val_reraises recurse im rename ud n
        context key_name a typ name :
  let r := dispatch recurse im rename ud n context key_name a typ name in
  let r' := deserialize_val recurse im rename ud (S n)
                            context key_name a typ name in
  (forall reason, r = Error (TypeError reason) ->
     r' = Error (TypeError (Unable a typ (dotted context key_name) reason))) /\
  (forall e, r = Error e -> is_TypeError e = false -> r' = Error e) /\
  (forall v, r = Ok v -> r' = Ok v) /\
  (forall fuel m,
     deserialize_val recurse im rename ud fuel context key_name a typ name
     = Error (TypeError m) ->
     exists reason, m = Unable a typ (dotted context key_name) reason).
Proof.
  intros r r'. subst r r'. rewrite deserialize_val_S.
  destruct (reraise_TypeError_cases a typ (dotted context key_name)
              (dispatch recurse im rename ud n context key_name a typ name))
    as (H1 & H2 & H3).
  repeat split; try assumption.
  intros fuel m. apply deserialize_val_TypeError.
Qed.

Lemma deserialize_val_reraises_witness :
  deserialize_val true false rename_default union_discriminator_default 3
                  [] "x" (VList [VInt 1]) (TIter "List" (Some (TClass C))) "x"
  = Error (TypeError
             (Unable (VList [VInt 1]) (TIter "List" (Some (TClass C))) ".x"
                (Unable (VInt 1) (TClass C) ".x"
                   (Msg "argument of type 'int' is not iterable")))).
Proof.
  pose proof (deserialize_val_reraises true false rename_default
                union_discriminator_default 2 [] "x" (VList [VInt 1])
                (TIter "List" (Some (TClass C))) "x") as H.
  cbv zeta in H. destruct H as (H & _).
  exact (H (Unable (VInt 1) (TClass C) ".x"
                   (Msg "argument of type 'int' is not iterable")) eq_refl).
Defined.

(** A list where [Dict[str, int]] is declared: the failure is an
    [AttributeError], which is not caught, and the call does not fail with
    a type-mismatch error. *)
Lemma fromdict_AttributeError_not_reraised :
  fromdict true false rename_default union_discriminator_default 3
           (One (TDict (Some (TStr, TLeaf "int"))))
           (VDict [(VStr "x", VList [VInt 1])])
  = Error (AttributeError "'list' object has no attribute 'items'") /\
  ~ (exists e,
       fromdict true false rename_default union_discriminator_default 3
                (One (TDict (Some (TStr, TLeaf "int"))))
                (VDict [(VStr "x", VList [VInt 1])]) = Error e /\
       is_type_mismatch e = true).
Proof.
  split; [reflexivity |].
  intros (e & H & He). cbv in H. injection H as <-. discriminate.
Qed.

(** C7.  For a declared type that is a union with [None] among its
    alternatives: a source value [None] stays [None]; any other value is
    dispatched again, on [Optional[X]], that is [Union[X, None]], to [X],
    and on a union of more than two alternatives to the union of those
    that are not [None].  But on [Union[None, X]] the value is dispatched
    to the first alternative, which is [NoneType], and comes back as it
    is: the mapping for a field of the type [Union[None, C]] is stored as
    a mapping in the instance, where [Optional[C]] gives [C(1, 2)]. *)
Theorem optional_first_alternative recurse im rename ud n
        context key_name a X name :
  a <> VNone ->
  (forall ps, _is_optional (TUnion ps) = true ->
     deserialize_val recurse im rename ud (S n) context key_name
                     VNone (TUnion ps) name = Ok VNone) /\
  dispatch recurse im rename ud n context key_name a (Optional X) name
  = deserialize_val recurse im rename ud n context key_name a X name /\
  (forall ps, _is_optional (TUnion ps) = true ->
     Nat.ltb 2 (List.length ps) = true ->
     dispatch recurse im rename ud n context key_name a (TUnion ps) name
     = t <- Union_getitem (filter (fun t => negb (is_NoneType t)) ps) ;;
       deserialize_val recurse im rename ud n context key_name a t name) /\
  deserialize_val recurse im rename ud (S (S n)) context key_name
                  a (TUnion [TNoneType; X]) name = Ok a /\
  fromdict true false rename_default union_discriminator_default 4
           (One (TUnion [TNoneType; TClass C]))
           (VDict [(VStr "x", VDict [(VStr "x", VInt 1); (VStr "y", VInt 2)])])
  = Ok (One_ (TUnion [TNoneType; TClass C])
             (VDict [(VStr "x", VInt 1); (VStr "y", VInt 2)])) /\
  fromdict true false rename_default union_discriminator_default 4
           (One (Optional (TClass C)))
           (VDict [(VStr "x", VDict [(VStr "x", VInt 1); (VStr "y", VInt 2)])])
  = Ok (One_ (Optional (TClass C)) (C_ (VInt 1) (VInt 2))).
Proof.
  intros Ha. split; [| split; [| split; [| split; [| split]]]].
  - intros ps Hps. rewrite deserialize_val_S. unfold dispatch.
    now rewrite Hps.
  - unfold dispatch, Optional. simpl.
    rewrite orb_true_r. now destruct a.
  - intros ps Hps Hlen. unfold dispatch. rewrite Hps, Hlen.
    now destruct a.
  - rewrite deserialize_val_S. unfold dispatch. simpl.
    destruct a; try (now destruct Ha); reflexivity.
  - reflexivity.
  - reflexivity.
Qed.

Lemma optional_first_alternative_witness :
  deserialize_val true false rename_default union_discriminator_default 2
                  [] "x" (VDict [(VStr "x", VInt 1); (VStr "y", VInt 2)])
                  (TUnion [TNoneType; TClass C]) "x"
  = Ok (VDict [(VStr "x", VInt 1); (VStr "y", VInt 2)]).
Proof.
  assert (H : VDict [(VStr "x", VInt 1); (VStr "y", VInt 2)] <> VNone)
    by discriminate.
  exact (proj1 (proj2 (proj2 (proj2
           (optional_first_alternative true false rename_default
              union_discriminator_default 0 [] "x" _ (TClass C) "x" H))))).
Defined.

(* ================================================================= *)
(** ** Exceptions of the callbacks *)
















(* ================================================================= *)
(** ** assoc *)

Lemma attr_map_get_store m n a k :
  attr_map_get (attr_map_store m n a) k =
  if String.eqb n k then Some a else attr_map_get m k.
Proof.
  induction m as [| [k0 b] m IH]; simpl; [reflexivity |].
  destruct (String.eqb k0 n) eqn:E; simpl.
  - apply String.eqb_eq in E. subst k0. now destruct (String.eqb n k).
  - rewrite IH. destruct (String.eqb k0 k) eqn:E'; [| reflexivity].
    apply String.eqb_eq in E'. subst k0.
    rewrite String.eqb_sym in E. now rewrite E.
Qed.

Lemma attr_map_of_known attrs acc k :
  names_field attrs k \/ attr_map_get acc k <> None ->
  attr_map_get (attr_map_of attrs acc) k <> None.
Proof.
  revert acc. induction attrs as [| a attrs IH]; intros acc H; simpl.
  - destruct H as [(a & [] & _) | H]. exact H.
  - apply IH. rewrite attr_map_get_store.
    destruct (String.eqb (name a) k) eqn:E; [right; discriminate |].
    destruct H as [(a' & [-> | Hin] & Hn) | H].
    + subst k. now rewrite String.eqb_refl in E.
    + left. exists a'. auto.
    + now right.
Qed.

Lemma attr_map_of_unknown attrs acc k :
  ~ names_field attrs k ->
  attr_map_get (attr_map_of attrs acc) k = attr_map_get acc k.
Proof.
  revert acc. induction attrs as [| a attrs IH]; intros acc H; [reflexivity |].
  simpl. rewrite IH.
  - rewrite attr_map_get_store.
    destruct (String.eqb (name a) k) eqn:E; [| reflexivity].
    apply String.eqb_eq in E. destruct H. exists a. split; [now left | exact E].
  - intros (a' & Hin & Hn). apply H. exists a'. split; [now right | exact Hn].
Qed.

Lemma attr_lookup_store d n v k :
  attr_lookup (attr_store d n v) k =
  if String.eqb n k then Some v else attr_lookup d k.
Proof.
  induction d as [| [k0 x] d IH]; simpl; [reflexivity |].
  destruct (String.eqb k0 n) eqn:E; simpl.
  - apply String.eqb_eq in E. subst k0. now destruct (String.eqb n k).
  - rewrite IH. destruct (String.eqb k0 k) eqn:E'; [| reflexivity].
    apply String.eqb_eq in E'. subst k0.
    rewrite String.eqb_sym in E. now rewrite E.
Qed.

Lemma apply_changes_other d changes n :
  ~ In n (map fst changes) ->
  attr_lookup (apply_changes d changes) n = attr_lookup d n.
Proof.
  revert d. induction changes as [| [k v] changes IH]; intros d H; [reflexivity |].
  simpl in *. unfold apply_changes in *. rewrite IH by tauto.
  rewrite attr_lookup_store.
  destruct (String.eqb k n) eqn:E; [| reflexivity].
  apply String.eqb_eq in E. tauto.
Qed.

Lemma apply_changes_changed d changes k v :
  NoDup (map fst changes) ->
  In (k, v) changes ->
  attr_lookup (apply_changes d changes) k = Some v.
Proof.
  revert d. induction changes as [| [k0 v0] changes IH]; intros d Hnd Hin;
    [destruct Hin |].
  simpl in Hnd. inversion Hnd as [| ? ? Hnotin Hnd']; subst.
  destruct Hin as [[= -> ->] | Hin].
  - change (apply_changes d ((k, v) :: changes))
      with (apply_changes (attr_store d k v) changes).
    rewrite apply_changes_other by exact Hnotin.
    rewrite attr_lookup_store. now rewrite String.eqb_refl.
  - now apply IH.
Qed.

Lemma nth_error_heap_update_same h r o :
  r < List.length h -> nth_error (heap_update h r o) r = Some o.
Proof.
  revert r. induction h as [| x h IH]; intros r Hr; simpl in *; [lia |].
  destruct r as [| r]; [reflexivity |]. simpl. apply IH. lia.
Qed.

Lemma nth_error_heap_update_other h r o l :
  l <> r -> nth_error (heap_update h r o) l = nth_error h l.
Proof.
  revert r l. induction h as [| x h IH]; intros r l Hl; simpl.
  - reflexivity.
  - destruct r as [| r], l as [| l]; simpl; try reflexivity; try lia.
    apply IH. lia.
Qed.

Lemma length_heap_update h r o :
  List.length (heap_update h r o) = List.length h.
Proof.
  revert r. induction h as [| x h IH]; intros r; simpl; [reflexivity |].
  destruct r; simpl; [reflexivity | now rewrite IH].
Qed.

Lemma _obj_setattr_eq obj n v h :
  _obj_setattr obj n v h =
  match nth_error h obj with
  | Some (VInst c d) =>
      (Ok tt, heap_update h obj (VInst c (attr_store d n v)))
  | Some o => (Error (no_attribute o n), h)
  | None => (Error (OtherError "ReferenceError" "dangling reference"), h)
  end.
Proof.
  unfold _obj_setattr, bindM, deref, raise.
  destruct (nth_error h obj) as [[] |]; reflexivity.
Qed.

Section AssocLoopProperties.
Variables (new : ref) (cl : cls) (attrs : list attribute).

Abbreviation loop := (assoc_loop new cl (attr_map_of attrs [])).

(** The loop assigns to [new] only. *)
Lemma assoc_loop_frame changes h l :
  l <> new ->
  nth_error (snd (loop changes h)) l = nth_error h l.
Proof.
  intros Hl. revert h.
  induction changes as [| [k v] changes IH]; intros h; [reflexivity |].
  simpl. destruct (attr_map_get _ k); [| reflexivity].
  unfold bindM. rewrite _obj_setattr_eq.
  destruct (nth_error h new) as [[| | | | | | | c d |] |]; try reflexivity.
  rewrite IH. now apply nth_error_heap_update_other.
Qed.

Lemma assoc_loop_unknown pre k v post h d :
  nth_error h new = Some (VInst cl d) ->
  (forall k' v', In (k', v') pre -> names_field attrs k') ->
  ~ names_field attrs k ->
  fst (loop (pre ++ (k, v) :: post)%list h)
  = Error (ValueError (NotAnAttribute k cl)).
Proof.
  intros Hnew Hpre Hk. revert h d Hnew.
  induction pre as [| [k0 v0] pre IH]; intros h d Hnew; simpl.
  - rewrite attr_map_of_unknown by exact Hk. reflexivity.
  - destruct (attr_map_get _ k0) eqn:E.
    + unfold bindM. rewrite _obj_setattr_eq, Hnew.
      apply (IH (fun k' v' H => Hpre k' v' (or_intror H)) _
                (attr_store d k0 v0)).
      apply nth_error_heap_update_same.
      apply nth_error_Some. now rewrite Hnew.
    + exfalso. revert E. apply attr_map_of_known. left.
      apply (Hpre k0 v0). now left.
Qed.

Lemma assoc_loop_known changes h d :
  nth_error h new = Some (VInst cl d) ->
  (forall k v, In (k, v) changes -> names_field attrs k) ->
  fst (loop changes h) = Ok tt /\
  nth_error (snd (loop changes h)) new
  = Some (VInst cl (apply_changes d changes)).
Proof.
  revert h d. induction changes as [| [k v] changes IH]; intros h d Hnew Hall.
  - simpl. auto.
  - simpl. destruct (attr_map_get _ k) eqn:E.
    + unfold bindM. rewrite _obj_setattr_eq, Hnew.
      apply IH.
      * apply nth_error_heap_update_same.
        apply nth_error_Some. now rewrite Hnew.
      * intros k' v' H. apply (Hall k' v'). now right.
    + exfalso. revert E. apply attr_map_of_known. left.
      apply (Hall k v). now left.
Qed.
End AssocLoopProperties.

Lemma assoc_eq h inst c d attrs changes :
  nth_error h inst = Some (VInst c d) ->
  __attrs_attrs__ c = Some attrs ->
  assoc inst changes h =
  match assoc_loop (List.length h) c (attr_map_of attrs []) changes
                   (h ++ [VInst c d])%list with
  | (Ok _, h') => (Ok (List.length h), h')
  | (Error e, h') => (Error e, h')
  end.
Proof.
  intros Hinst Hc. unfold assoc, copy, bindM, deref. rewrite Hinst.
  rewrite nth_error_app2 by lia. rewrite Nat.sub_diag. simpl.
  rewrite Hc. unfold ret.
  now destruct (assoc_loop _ _ _ _ _) as [[[] |] h'].
Qed.

(** C6.  For an instance of a declarative class in the store: [assoc]
    leaves every object of the store as it was, the instance among them,
    whether it returns or raises.  If a change names no field descriptor
    of the class, and the changes before it do, [assoc] raises the
    unknown-attribute error with that name and the class.  If every change
    names a field descriptor, [assoc] returns a new object of the same
    class, whose attributes are those of the instance after the changes:
    a changed attribute has the new value, any other the value it has in
    the instance. *)
Theorem assoc_spec h inst c d attrs changes :
  nth_error h inst = Some (VInst c d) ->
  __attrs_attrs__ c = Some attrs ->
  (forall l, l < List.length h ->
     nth_error (snd (assoc inst changes h)) l = nth_error h l) /\
  (forall pre k v post,
     changes = (pre ++ (k, v) :: post)%list ->
     (forall k' v', In (k', v') pre -> names_field attrs k') ->
     ~ names_field attrs k ->
     fst (assoc inst changes h) = Error (ValueError (NotAnAttribute k c))) /\
  ((forall k v, In (k, v) changes -> names_field attrs k) ->
   exists new,
     fst (assoc inst changes h) = Ok new /\
     new <> inst /\
     nth_error h new = None /\
     nth_error (snd (assoc inst changes h)) new
     = Some (VInst c (apply_changes d changes)) /\
     (NoDup (map fst changes) ->
      forall k v, In (k, v) changes ->
        attr_lookup (apply_changes d changes) k = Some v) /\
     (forall n, ~ In n (map fst changes) ->
        attr_lookup (apply_changes d changes) n = attr_lookup d n)).
Proof.
  intros Hinst Hc.
  assert (Hlt : inst < List.length h)
    by (apply nth_error_Some; now rewrite Hinst).
  assert (Hnew : nth_error (h ++ [VInst c d])%list (List.length h)
                 = Some (VInst c d))
    by (rewrite nth_error_app2 by lia; now rewrite Nat.sub_diag).
  rewrite (assoc_eq h inst c d attrs changes Hinst Hc).
  split; [| split].
  - intros l Hl.
    pose proof (assoc_loop_frame (List.length h) c attrs changes
                  (h ++ [VInst c d])%list l) as Hframe.
    destruct (assoc_loop _ _ _ _ _) as [[[] |] h']; simpl in *;
      (rewrite Hframe by lia; now apply nth_error_app1).
  - intros pre k v post -> Hpre Hk.
    pose proof (assoc_loop_unknown (List.length h) c attrs pre k v post
                  _ d Hnew Hpre Hk) as Hloop.
    destruct (assoc_loop _ _ _ _ _) as [[[] |] h']; simpl in *;
      congruence.
  - intros Hall.
    destruct (assoc_loop_known (List.length h) c attrs changes
                _ d Hnew Hall) as [Hok Hobj].
    exists (List.length h).
    destruct (assoc_loop _ _ _ _ _) as [[[] |] h']; simpl in *;
      [| discriminate].
    repeat split.
    + lia.
    + apply nth_error_None. lia.
    + exact Hobj.
    + intros Hnd k v Hin. now apply apply_changes_changed.
    + intros n Hn. now apply apply_changes_other.
Qed.

Lemma assoc_spec_witness :
  fst (assoc 0 [("zzzz", VInt 1)] [C_ (VInt 1) (VInt 2)])
  = Error (ValueError (NotAnAttribute "zzzz" C)) /\
  nth_error (snd (assoc 0 [("zzzz", VInt 1)] [C_ (VInt 1) (VInt 2)])) 0
  = Some (C_ (VInt 1) (VInt 2)).
Proof.
  destruct (assoc_spec [C_ (VInt 1) (VInt 2)] 0 C _ _ [("zzzz", VInt 1)]
                       eq_refl eq_refl) as (Hframe & Hunknown & _).
  split.
  - apply (Hunknown [] "zzzz" (VInt 1) [] eq_refl).
    + intros k' v' [].
    + intros (a & [<- | [<- | []]] & Hn); discriminate.
  - apply (Hframe 0). simpl. lia.
Defined.


(* ================================================================= *)
(** * Further properties *)

(** ** asdict: the keys of the result *)

Lemma dict_store_fresh d k v :
  (forall kv, In kv d -> py_eq (fst kv) k = false) ->
  dict_store d k v = (d ++ [(k, v)])%list.
Proof.
  induction d as [| [k0 v0] d IH]; intros H; simpl; [reflexivity |].
  pose proof (H (k0, v0) (or_introl eq_refl)) as E. simpl in E. rewrite E.
  rewrite IH; [reflexivity |]. intros kv Hin. apply H. now right.
Qed.

Lemma asdict_loop_keys inst r f rt attrs rv0 rv :
  NoDup (map name attrs) ->
  (forall kv, In kv rv0 ->
     exists m, fst kv = VStr m /\ ~ In m (map name attrs)) ->
  asdict_loop inst r f rt attrs rv0 = Ok (VDict rv) ->
  map fst rv
  = (map fst rv0
       ++ map (fun a => VStr (name a)) (List.filter (is_kept inst f) attrs))%list.
Proof.
  revert rv0. induction attrs as [| a attrs IH]; intros rv0 Hnd Hkeys H.
  - simpl in *. injection H as <-. now rewrite app_nil_r.
  - simpl in H, Hnd. inversion Hnd as [| ? ? Hnotin Hnd']; subst.
    apply bind_Ok in H as (v & Hv & H).
    apply bind_Ok in H as (keep & Hk & H).
    cbn [List.filter]. unfold is_kept at 1. rewrite Hv, Hk.
    destruct keep; simpl in H.
    + apply bind_Ok in H as (x & _ & H). simpl in H.
      rewrite dict_store_fresh in H.
      * apply IH in H; [| exact Hnd' |].
        -- rewrite H, map_app. simpl. now rewrite <- app_assoc.
        -- intros kv Hin. apply in_app_or in Hin as [Hin | [<- | []]].
           ++ destruct (Hkeys kv Hin) as (m & Hm & Hnot).
              exists m. split; [exact Hm |]. intros Hin'. apply Hnot. now right.
           ++ exists (name a). auto.
      * intros kv Hin. destruct (Hkeys kv Hin) as (m & -> & Hnot). simpl.
        apply String.eqb_neq. intros ->. apply Hnot. now left.
    + apply IH in H; [exact H | exact Hnd' |].
      intros kv Hin. destruct (Hkeys kv Hin) as (m & Hm & Hnot).
      exists m. split; [exact Hm |]. intros Hin'. apply Hnot. now right.
Qed.

(** X1.  The mapping that [asdict] returns has one key for each field that
    the filter keeps, and no other: the names of these fields, in the
    order of their declaration. *)
Theorem asdict_keys_in_declaration_order inst recurse f retain attrs rv :
  fields (class_of inst) = Ok attrs ->
  NoDup (map name attrs) ->
  asdict inst recurse f retain = Ok (VDict rv) ->
  map fst rv
  = map (fun a => VStr (name a)) (List.filter (is_kept inst f) attrs).
Proof.
  intros Hf Hnd H. rewrite asdict_eq, Hf in H. simpl in H.
  apply (asdict_loop_keys _ _ _ _ _ [] _ Hnd) in H; [exact H |].
  intros kv [].
Qed.

Lemma asdict_keys_in_declaration_order_witness :
  map fst [(VStr "x", VDict [(VStr "x", VInt 1)])] = [VStr "x"].
Proof.
  assert (Hnd : NoDup (map name [Attribute "x" None; Attribute "y" None])).
  { simpl. constructor; [| constructor; [| constructor]]; simpl; [| tauto].
    intros [H | []]. discriminate. }
  exact (asdict_keys_in_declaration_order
           (C_ (C_ (VInt 1) (VInt 2)) (C_ (VInt 3) (VInt 4)))
           true (Some (name_is_not "y")) false _ _ eq_refl Hnd eq_refl).
Defined.

(** ** asdict: where [retain_collection_types] matters *)



(** ** asdict: mappings and sequences *)

Lemma asdict_mapping_instance_key items acc kk vv r :
  In (kk, vv) items ->
  has (class_of kk) = true ->
  asdict_mapping items acc <> Ok r.
Proof.
  revert acc. induction items as [| [k v] items IH]; intros acc Hin Hhas H;
    [destruct Hin |].
  simpl in H.
  apply bind_Ok in H as (k' & Hk' & H).
  apply bind_Ok in H as (v' & _ & H).
  apply bind_Ok in H as (acc' & Hset & H).
  destruct Hin as [[= -> ->] | Hin].
  - unfold asdict_item in Hk'. rewrite Hhas in Hk'.
    apply asdict_dict in Hk' as [d ->]. discriminate.
  - exact (IH acc' Hin Hhas H).
Qed.

(** X3.  A mapping-valued field that has a declaratively attributed
    instance among its keys makes [asdict] with [recurse] fail: the key is
    converted to a dict, and a dict is no key of a dict. *)
Theorem asdict_instance_key_fails inst f retain attrs a items kk vv :
  fields (class_of inst) = Ok attrs ->
  In a attrs ->
  getattr inst (name a) = Ok (VDict items) ->
  keeps f a (VDict items) = Ok true ->
  In (kk, vv) items ->
  has (class_of kk) = true ->
  forall r, asdict inst true f retain <> Ok r.
Proof.
  intros Hf Hin Hv Hk Hitems Hhas r H.
  destruct (asdict_stored _ _ _ _ _ _ _ _ Hf Hin Hv Hk H) as (rv & y & _ & Hy & _).
  unfold asdict_value in Hy. simpl in Hy.
  exact (asdict_mapping_instance_key _ _ _ _ _ Hitems Hhas Hy).
Qed.

Lemma asdict_instance_key_fails_witness :
  asdict (C_ (VInt 1) (VDict [(C_ (VInt 4) (VInt 5), VInt 3)]))
         true None false
  <> Ok (VDict []).
Proof.
  assert (Hin : In (Attribute "y" None)
                   [Attribute "x" None; Attribute "y" None])
    by (right; left; reflexivity).
  exact (asdict_instance_key_fails
           (C_ (VInt 1) (VDict [(C_ (VInt 4) (VInt 5), VInt 3)]))
           None false _ _ _ _ _ eq_refl Hin eq_refl eq_refl
           (or_introl eq_refl) eq_refl (VDict [])).
Defined.

(** X4.  [asdict] converts the elements of a sequence that are instances
    and goes no deeper: an element that is no declaratively attributed
    instance is stored as it is, whatever it holds.  So a sequence without
    instances among its elements is stored as the list of its elements. *)
Theorem asdict_sequence_one_level inst f attrs a v xs :
  fields (class_of inst) = Ok attrs ->
  In a attrs ->
  getattr inst (name a) = Ok v ->
  keeps f a v = Ok true ->
  v = VTuple xs \/ v = VList xs \/ v = VSet xs ->
  (forall i, In i xs -> has (class_of i) = false) ->
  asdict_value true f false v = Ok (VList xs) /\
  forall r, asdict inst true f false = Ok r ->
    exists rv, r = VDict rv /\
               dict_lookup rv (VStr (name a)) = Some (VList xs).
Proof.
  intros Hf Hin Hv Hk Hkind Hxs.
  assert (Hval : asdict_value true f false v = Ok (VList xs)).
  { assert (Hmap : mapM (asdict_item f) xs = Ok xs).
    { apply mapM_same. intros i Hi. unfold asdict_item.
      now rewrite (Hxs i Hi). }
    destruct Hkind as [-> | [-> | ->]]; unfold asdict_value; simpl;
      now rewrite Hmap. }
  split; [exact Hval |]. intros r H.
  destruct (asdict_stored _ _ _ _ _ _ _ _ Hf Hin Hv Hk H) as (rv & y & -> & Hy & Hl).
  rewrite Hval in Hy. injection Hy as <-. eauto.
Qed.

Lemma asdict_sequence_one_level_witness :
  asdict_value true None false (VTuple [VList [C_ (VInt 1) (VInt 2)]])
  = Ok (VList [VList [C_ (VInt 1) (VInt 2)]]).
Proof.
  assert (Hin : In (Attribute "y" None)
                   [Attribute "x" None; Attribute "y" None])
    by (right; left; reflexivity).
  apply (asdict_sequence_one_level
           (C_ (VInt 0) (VTuple [VList [C_ (VInt 1) (VInt 2)]]))
           None _ _ _ [VList [C_ (VInt 1) (VInt 2)]]
           eq_refl Hin eq_refl eq_refl (or_introl eq_refl)).
  intros i [<- | []]. reflexivity.
Defined.

(* ================================================================= *)
(** ** fromdict: the keys it reads *)

Lemma raw_value_lookup im d d' context key :
  dict_lookup d (VStr key) = dict_lookup d' (VStr key) ->
  raw_value im (VDict d) context key = raw_value im (VDict d') context key.
Proof.
  intros H. unfold raw_value. simpl. now rewrite H.
Qed.

(** X5.  [fromdict] reads the source mapping at the renamed names of the
    fields and nowhere else: two mappings that agree on these keys give
    the same result, so the other keys of the source are ignored. *)
Theorem fromdict_reads_field_keys_only recurse im rename ud fuel
        c attrs d d' context :
  fields c = Ok attrs ->
  (forall a, In a attrs ->
     dict_lookup d (VStr (rename (name a)))
     = dict_lookup d' (VStr (rename (name a)))) ->
  _fromdict recurse im rename ud fuel c (VDict d) context
  = _fromdict recurse im rename ud fuel c (VDict d') context.
Proof.
  intros Hf H. destruct fuel as [| n]; [reflexivity |].
  rewrite !_fromdict_S, Hf. simpl. clear Hf.
  apply bind_ext; [| reflexivity].
  generalize (@nil (value * value)).
  induction attrs as [| a attrs IH]; intros cons; [reflexivity |].
  cbn [fromdict_loop].
  rewrite (raw_value_lookup im d d' context _ (H a (or_introl eq_refl))).
  apply bind_ext; [reflexivity | intros val].
  apply bind_ext; [reflexivity | intros x].
  apply bind_ext; [reflexivity | intros cons'].
  apply IH. intros a' Ha'. apply H. now right.
Qed.

Lemma fromdict_reads_field_keys_only_witness :
  fromdict true false rename_default union_discriminator_default 1 C
           (VDict [(VStr "x", VInt 1); (VStr "y", VInt 2); (VStr "z", VInt 3)])
  = fromdict true false rename_default union_discriminator_default 1 C
             (VDict [(VStr "x", VInt 1); (VStr "y", VInt 2)]).
Proof.
  apply (fromdict_reads_field_keys_only true false rename_default
           union_discriminator_default 1 C
           [Attribute "x" None; Attribute "y" None] _ _ [] eq_refl).
  intros a [<- | [<- | []]]; reflexivity.
Defined.

(* ================================================================= *)
(** ** fromdict without recursion *)

Lemma store_values_keeps g attrs rv n :
  dict_lookup rv (VStr n) = Some (g n) ->
  dict_lookup (store_values g attrs rv) (VStr n) = Some (g n).
Proof.
  revert rv. induction attrs as [| a attrs IH]; intros rv H; [exact H |].
  simpl. apply IH. rewrite dict_lookup_store_str.
  destruct (String.eqb (name a) n) eqn:E; [| exact H].
  apply String.eqb_eq in E. now subst n.
Qed.

Lemma store_values_lookup g attrs rv a :
  In a attrs ->
  dict_lookup (store_values g attrs rv) (VStr (name a)) = Some (g (name a)).
Proof.
  revert rv. induction attrs as [| a0 attrs IH]; intros rv Hin; [destruct Hin |].
  simpl. destruct Hin as [-> | Hin]; [| now apply IH].
  apply store_values_keeps. rewrite dict_lookup_store_str.
  now rewrite String.eqb_refl.
Qed.

Lemma store_values_keys g attrs rv kv :
  In kv (store_values g attrs rv) ->
  (exists a, In a attrs /\ fst kv = VStr (name a)) \/
  (exists kv', In kv' rv /\ fst kv = fst kv').
Proof.
  revert rv. induction attrs as [| a attrs IH]; intros rv H.
  - right. exists kv. auto.
  - simpl in H. destruct (IH _ H) as [(a' & Ha' & E) | (kv' & Hin & E)].
    + left. exists a'. split; [now right | exact E].
    + destruct (dict_store_keys _ _ _ _ Hin) as [E' | (kv'' & Hin' & E')].
      * left. exists a. split; [now left | congruence].
      * right. exists kv''. split; [exact Hin' | congruence].
Qed.

Lemma construct_store_values c g attrs :
  __attrs_attrs__ c = Some attrs ->
  construct c (store_values g attrs [])
  = Ok (VInst c (map (fun a => (name a, g (name a))) attrs)).
Proof.
  intros Hc. unfold construct. rewrite Hc.
  rewrite (mapM_map _ (fun a => (name a, g (name a)))).
  - simpl.
    replace (forallb _ _) with true; [reflexivity |].
    symmetry. apply forallb_forall. intros kv Hkv.
    apply store_values_keys in Hkv as [(a & Ha & E) | (kv' & [] & _)].
    apply existsb_exists. exists a. split; [exact Ha |].
    rewrite E. simpl. apply String.eqb_refl.
  - intros a Ha. now rewrite store_values_lookup.
Qed.

Lemma fromdict_loop_raw im rename ud n d g context attrs cons :
  (forall a, In a attrs ->
     dict_lookup d (VStr (rename (name a))) = Some (g (name a))) ->
  fromdict_loop false im rename ud n (VDict d) context attrs cons
  = Ok (store_values g attrs cons).
Proof.
  revert cons. induction attrs as [| a attrs IH]; intros cons H; [reflexivity |].
  simpl. unfold raw_value. simpl.
  rewrite (H a) by now left.
  assert (IH' := fun cons => IH cons (fun a' Ha' => H a' (or_intror Ha'))).
  destruct im; simpl; apply IH'.
Qed.

(** X6.  Without [recurse], [fromdict] gives each field the value that the
    source mapping has at the renamed name of the field, as it is,
    whatever the declared type of the field: the key that is read is
    [rename(a.name)], the keyword that is passed to the constructor is
    [a.name].  Neither the discriminator nor the declared types are
    used. *)
Theorem fromdict_shallow im rename ud n c attrs d g context :
  __attrs_attrs__ c = Some attrs ->
  (forall a, In a attrs ->
     dict_lookup d (VStr (rename (name a))) = Some (g (name a))) ->
  _fromdict false im rename ud (S n) c (VDict d) context
  = Ok (VInst c (map (fun a => (name a, g (name a))) attrs)).
Proof.
  intros Hc H. rewrite _fromdict_S. unfold fields. rewrite Hc. simpl.
  rewrite (fromdict_loop_raw im rename ud n d g context attrs [] H). simpl.
  now apply construct_store_values.
Qed.

Lemma fromdict_shallow_witness :
  fromdict false false (fun n => String.append "_" n)
           union_discriminator_default 1 (One (TClass C))
           (VDict [(VStr "_x", VInt 1)])
  = Ok (One_ (TClass C) (VInt 1)).
Proof.
  apply (fromdict_shallow false (fun n => String.append "_" n)
           union_discriminator_default 0 (One (TClass C)) _
           [(VStr "_x", VInt 1)] (fun _ => VInt 1) [] eq_refl).
  intros a [<- | []]. reflexivity.
Defined.

(** X7.  The round trip from the mapping: for a mapping that has a key
    for every field, [asdict] without [recurse] of the instance that
    [fromdict] without [recurse] constructs returns a mapping with the
    values of the source at the names of the fields. *)
Theorem asdict_of_fromdict im ud n retain c attrs d :
  __attrs_attrs__ c = Some attrs ->
  (forall a, In a attrs -> dict_lookup d (VStr (name a)) <> None) ->
  exists y rv,
    fromdict false im rename_default ud (S n) c (VDict d) = Ok y /\
    asdict y false None retain = Ok (VDict rv) /\
    forall a, In a attrs ->
      dict_lookup rv (VStr (name a)) = dict_lookup d (VStr (name a)).
Proof.
  intros Hc Hd.
  set (d' := map (fun a => (name a, key_value d (name a))) attrs).
  exists (VInst c d'), (store_fields d' attrs []).
  assert (Hf : fields c = Ok attrs) by (unfold fields; now rewrite Hc).
  assert (Hd' : forall a, In a attrs ->
             attr_lookup d' (name a) = Some (key_value d (name a)))
    by (intros a Ha; now apply attr_lookup_map).
  split; [| split].
  - unfold fromdict. rewrite _fromdict_S, Hf. simpl.
    rewrite (fromdict_loop_raw im rename_default ud n d (key_value d)
               [] attrs []).
    + simpl. now apply construct_store_values.
    + intros a Ha. unfold rename_default, key_value.
      destruct (dict_lookup d (VStr (name a))) eqn:E; [reflexivity |].
      now destruct (Hd a Ha).
  - rewrite asdict_eq. simpl. rewrite Hf. simpl.
    apply asdict_loop_shallow. intros a Ha. now rewrite (Hd' a Ha).
  - intros a Ha. rewrite store_fields_lookup by exact Ha.
    unfold attr_value. rewrite (Hd' a Ha). unfold key_value.
    destruct (dict_lookup d (VStr (name a))) eqn:E; [reflexivity |].
    now destruct (Hd a Ha).
Qed.

Lemma asdict_of_fromdict_witness :
  exists y rv,
    fromdict false false rename_default union_discriminator_default 1 C
             (VDict [(VStr "y", VInt 2); (VStr "x", VInt 1)]) = Ok y /\
    asdict y false None false = Ok (VDict rv) /\
    forall a, In a [Attribute "x" None; Attribute "y" None] ->
      dict_lookup rv (VStr (name a))
      = dict_lookup [(VStr "y", VInt 2); (VStr "x", VInt 1)] (VStr (name a)).
Proof.
  apply (asdict_of_fromdict false union_discriminator_default 0 false C
           _ [(VStr "y", VInt 2); (VStr "x", VInt 1)] eq_refl).
  intros a [<- | [<- | []]]; discriminate.
Defined.

(* ================================================================= *)
(** ** The round trip with recursion *)

Lemma attr_lookup_app_skip d0 d n :
  (forall kv, In kv d0 -> fst kv <> n) ->
  attr_lookup (d0 ++ d)%list n = attr_lookup d n.
Proof.
  induction d0 as [| [k v] d0 IH]; intros H; simpl; [reflexivity |].
  destruct (String.eqb k n) eqn:E.
  - apply String.eqb_eq in E. now destruct (H (k, v) (or_introl eq_refl)).
  - apply IH. intros kv Hin. apply H. now right.
Qed.

Lemma Forall2_combine_lookup (R : attribute -> value -> Prop) attrs vs :
  Forall2 R attrs vs ->
  forall d0,
    NoDup (map name attrs) ->
    (forall kv, In kv d0 -> ~ In (fst kv) (map name attrs)) ->
    Forall2 (fun a v =>
               attr_lookup (d0 ++ combine (map name attrs) vs)%list (name a)
               = Some v /\ R a v) attrs vs.
Proof.
  induction 1 as [| a v attrs vs Hav HF IH]; intros d0 Hnd Hd0; [constructor |].
  simpl in Hnd. inversion Hnd as [| ? ? Hnotin Hnd']; subst.
  constructor.
  - split; [| exact Hav]. rewrite attr_lookup_app_skip.
    + simpl. now rewrite String.eqb_refl.
    + intros kv Hin E. apply (Hd0 kv Hin). left. now symmetry.
  - simpl.
    replace (d0 ++ (name a, v) :: combine (map name attrs) vs)%list
      with ((d0 ++ [(name a, v)]) ++ combine (map name attrs) vs)%list
      by (now rewrite <- app_assoc).
    apply IH; [exact Hnd' |].
    intros kv Hin Hin'. apply in_app_or in Hin as [Hin | [<- | []]].
    + apply (Hd0 kv Hin). now right.
    + now apply Hnotin.
Qed.

Lemma Forall2_In_l {A B} (R : A -> B -> Prop) xs ys x :
  Forall2 R xs ys -> In x xs -> exists y, R x y.
Proof.
  induction 1 as [| x0 y0 xs ys H0 HF IH]; intros Hin; [destruct Hin |].
  destruct Hin as [<- | Hin]; [eauto | now apply IH].
Qed.

Lemma map_attr_value_combine d attrs vs :
  Forall2 (fun a v => attr_lookup d (name a) = Some v) attrs vs ->
  map (fun a => (name a, attr_value d (name a))) attrs
  = combine (map name attrs) vs.
Proof.
  induction 1 as [| a v attrs vs Hav HF IH]; [reflexivity |].
  simpl. unfold attr_value at 1. now rewrite Hav, IH.
Qed.

Lemma conforms_instance n x c :
  conforms n x c -> class_of x = c /\ has c = true.
Proof.
  destruct n as [| n]; [intros [] |].
  intros (attrs & vs & Hc & _ & -> & _). unfold has. now rewrite Hc.
Qed.

Lemma asdict_loop_values c d retain (h : string -> value) attrs rv :
  (forall a, In a attrs ->
     attr_lookup d (name a) <> None /\
     asdict_value true None retain (attr_value d (name a)) = Ok (h (name a))) ->
  asdict_loop (VInst c d) true None retain attrs rv
  = Ok (VDict (store_values h attrs rv)).
Proof.
  revert rv. induction attrs as [| a attrs IH]; intros rv H; [reflexivity |].
  cbn [asdict_loop]. destruct (H a (or_introl eq_refl)) as [Hl Hv].
  unfold attr_value in Hv. unfold getattr.
  destruct (attr_lookup d (name a)) as [v |]; [| now destruct Hl].
  cbn [bind keeps negb]. rewrite Hv. cbn [bind].
  rewrite dict_setitem_str. cbn [bind]. apply IH.
  intros a' Ha'. apply H. now right.
Qed.

Lemma fromdict_loop_values im ud k D context (h g : string -> value)
      attrs cons :
  (forall a, In a attrs ->
     dict_lookup D (VStr (name a)) = Some (h (name a)) /\
     field_value true im rename_default ud k context a (h (name a))
     = Ok (g (name a))) ->
  fromdict_loop true im rename_default ud k (VDict D) context attrs cons
  = Ok (store_values g attrs cons).
Proof.
  revert cons. induction attrs as [| a attrs IH]; intros cons H; [reflexivity |].
  cbn [fromdict_loop]. destruct (H a (or_introl eq_refl)) as [Hl Hv].
  assert (Hraw : raw_value im (VDict D) context (rename_default (name a))
                 = Ok (h (name a))).
  { unfold raw_value, rename_default. simpl. rewrite Hl. now destruct im. }
  rewrite Hraw. cbn [bind]. rewrite Hv. cbn [bind].
  rewrite dict_setitem_str. cbn [bind]. apply IH.
  intros a' Ha'. apply H. now right.
Qed.

Lemma mapM_Forall2 {A B} (f : A -> result B) (Q : A -> B -> Prop) xs :
  Forall (fun i => exists y, f i = Ok y /\ Q i y) xs ->
  exists ys, mapM f xs = Ok ys /\ Forall2 Q xs ys.
Proof.
  induction 1 as [| i xs (y & Hf & HQ) HF (ys & Hfs & HQs)].
  - exists []. split; [reflexivity | constructor].
  - exists (y :: ys). simpl. rewrite Hf, Hfs. split; [reflexivity |].
    now constructor.
Qed.

Lemma mapM_back {A B} (g : B -> result A) xs ys :
  Forall2 (fun i y => g y = Ok i) xs ys -> mapM g ys = Ok xs.
Proof.
  induction 1 as [| i y xs ys Hg HF IH]; [reflexivity |].
  simpl. now rewrite Hg, IH.
Qed.

Lemma scalar_asdict_value v retain :
  scalar v = true -> asdict_value true None retain v = Ok v.
Proof. destruct v; try discriminate; reflexivity. Qed.

Section DeepRoundTrip.
Variable n : nat.

(** The round trip of the instances nested at most [n] deep. *)
Hypothesis IH :
  forall x c, conforms n x c ->
    exists D,
      (forall retain, asdict x true None retain = Ok (VDict D)) /\
      forall k im ud context, 3 * n <= k ->
        _fromdict true im rename_default ud k c (VDict D) context = Ok x.

Lemma roundtrip_instance c' w :
  conforms n w c' ->
  exists D,
    (forall retain, asdict_value true None retain w = Ok (VDict D)) /\
    asdict_item None w = Ok (VDict D) /\
    forall k im ud context key_name nm, 3 * n + 1 <= k ->
      deserialize_val true im rename_default ud k context key_name
                      (VDict D) (TClass c') nm = Ok w.
Proof.
  intros Hw. destruct (IH _ _ Hw) as (D & HD & Hback).
  destruct (conforms_instance _ _ _ Hw) as [Hcl Hhas].
  exists D. split; [| split].
  - intros retain. unfold asdict_value. rewrite Hcl, Hhas. apply HD.
  - unfold asdict_item. rewrite Hcl, Hhas. apply HD.
  - intros k im ud context key_name nm Hk. destruct k as [| k]; [lia |].
    rewrite deserialize_val_S. unfold dispatch. rewrite Hhas.
    rewrite Hback by lia. reflexivity.
Qed.

Lemma roundtrip_field a v :
  field_conforms (conforms n) a v ->
  exists y,
    (forall retain, asdict_value true None retain v = Ok y) /\
    forall k im ud context, 3 * n + 2 <= k ->
      field_value true im rename_default ud k context a y = Ok v.
Proof.
  unfold field_conforms, field_value. intros Hfc.
  assert (Hleaf : forall typ, (typ = TStr \/ exists tn, typ = TLeaf tn) ->
            forall k im ud context key_name nm, 3 * n + 2 <= k ->
              deserialize_val true im rename_default ud k context key_name
                              v typ nm = Ok v).
  { intros typ Htyp k im ud context key_name nm Hk.
    destruct k as [| k]; [lia |]. rewrite deserialize_val_S.
    destruct Htyp as [-> | [tn ->]]; reflexivity. }
  destruct (type a) as [t |].
  - destruct t as [| | | tn | c' | ps | p | tn [g |]]; try contradiction.
    + exists v. split; [intros; now apply scalar_asdict_value |].
      intros. apply Hleaf; auto.
    + exists v. split; [intros; now apply scalar_asdict_value |].
      intros. apply Hleaf; eauto.
    + destruct (roundtrip_instance c' v Hfc) as (D & HD & _ & Hback).
      exists (VDict D). split; [exact HD |].
      intros. apply Hback. lia.
    + destruct ps as [| t1 [| t2 [| t3 ps]]]; try contradiction;
        destruct t1; try contradiction; destruct t2; try contradiction.
      destruct Hfc as [-> | Hfc].
      * exists VNone. split; [reflexivity |].
        intros k im ud context Hk. destruct k as [| k]; [lia |].
        now rewrite deserialize_val_S.
      * destruct (roundtrip_instance c v Hfc) as (D & HD & _ & Hback).
        exists (VDict D). split; [exact HD |].
        intros k im ud context Hk. destruct k as [| k]; [lia |].
        rewrite deserialize_val_S. unfold dispatch. simpl.
        rewrite Hback by lia. reflexivity.
    + destruct g; try contradiction.
      destruct Hfc as (Hmk & xs & -> & HF).
      destruct (mapM_Forall2 (asdict_item None)
                  (fun i y => forall k im ud context key_name nm,
                     3 * n + 1 <= k ->
                     deserialize_val true im rename_default ud k context
                                     key_name y (TClass c) nm = Ok i) xs)
        as (ys & Hys & Hback).
      { eapply Forall_impl; [| exact HF]. intros i Hi.
        destruct (roundtrip_instance c i Hi) as (D & _ & Hitem & Hb).
        exists (VDict D). auto. }
      exists (VList ys). split.
      * intros retain. unfold asdict_value. simpl. rewrite Hys.
        now destruct retain.
      * intros k im ud context Hk. destruct k as [| k]; [lia |].
        rewrite deserialize_val_S. unfold dispatch. simpl.
        rewrite (mapM_back _ xs ys).
        -- simpl. now rewrite Hmk.
        -- eapply Forall2_impl; [| exact Hback]. intros i y H. apply H. lia.
  - exists v. split; [intros; now apply scalar_asdict_value | reflexivity].
Qed.
End DeepRoundTrip.

(** X8.  The round trip with recursion: for an instance that holds, in
    each field, what the declared type of the field says, [asdict] returns
    a mapping from which [fromdict] with [recurse] constructs that same
    instance, given a recursion limit of three calls for each level of
    nesting. *)
Theorem roundtrip_with_recursion n x c :
  conforms n x c ->
  exists D,
    (forall retain, asdict x true None retain = Ok (VDict D)) /\
    forall k im ud context, 3 * n <= k ->
      _fromdict true im rename_default ud k c (VDict D) context = Ok x.
Proof.
  revert x c. induction n as [| n IHn]; intros x c Hx; [destruct Hx |].
  destruct Hx as (attrs & vs & Hc & Hnd & -> & HF).
  set (d := combine (map name attrs) vs).
  assert (Hf : fields c = Ok attrs) by (unfold fields; now rewrite Hc).
  pose proof (Forall2_combine_lookup _ _ _ HF [] Hnd (fun kv H => match H with end))
    as HF'.
  simpl in HF'. fold d in HF'.
  assert (Hall : forall a, In a attrs ->
            attr_lookup d (name a) <> None /\
            (forall retain,
               asdict_value true None retain (attr_value d (name a))
               = Ok (converted d (name a))) /\
            forall k im ud context, 3 * n + 2 <= k ->
              field_value true im rename_default ud k context a
                          (converted d (name a))
              = Ok (attr_value d (name a))).
  { intros a Ha. destruct (Forall2_In_l _ _ _ _ HF' Ha) as (v & Hl & Hfc).
    destruct (roundtrip_field n IHn a v Hfc) as (y & Hy & Hback).
    unfold converted, attr_value. rewrite Hl.
    split; [discriminate |]. rewrite (Hy false). auto. }
  exists (store_values (converted d) attrs []). split.
  - intros retain. rewrite asdict_eq. simpl. rewrite Hf. simpl.
    apply asdict_loop_values. intros a Ha.
    destruct (Hall a Ha) as (Hl & Hv & _). auto.
  - intros k im ud context Hk. destruct k as [| k]; [lia |].
    rewrite _fromdict_S, Hf. simpl.
    rewrite (fromdict_loop_values im ud k _ context (converted d)
               (attr_value d) attrs []).
    + simpl. rewrite (construct_store_values c (attr_value d) attrs Hc).
      f_equal. f_equal. apply map_attr_value_combine.
      eapply Forall2_impl; [| exact HF']. now intros a v [Hl _].
    + intros a Ha. destruct (Hall a Ha) as (_ & _ & Hback).
      split; [now apply store_values_lookup | apply Hback; lia].
Qed.

Lemma roundtrip_with_recursion_witness :
  exists D,
    asdict (VInst Nest [("x", C_ (VInt 1) (VInt 2));
                        ("y", VList [C_ (VInt 3) (VInt 4)])])
           true None false = Ok (VDict D) /\
    fromdict true false rename_default union_discriminator_default 6 Nest
             (VDict D)
    = Ok (VInst Nest [("x", C_ (VInt 1) (VInt 2));
                      ("y", VList [C_ (VInt 3) (VInt 4)])]).
Proof.
  assert (HC : forall a b, conforms 1 (C_ (VInt a) (VInt b)) C).
  { intros a b. exists [Attribute "x" None; Attribute "y" None],
                       [VInt a; VInt b].
    split; [reflexivity |]. split.
    - repeat constructor; simpl; intuition discriminate.
    - split; [reflexivity |]. repeat constructor. }
  assert (HN : conforms 2 (VInst Nest [("x", C_ (VInt 1) (VInt 2));
                                       ("y", VList [C_ (VInt 3) (VInt 4)])])
                        Nest).
  { exists [Attribute "x" (Some (TClass C));
            Attribute "y" (Some (TIter "List" (Some (TClass C))))],
           [C_ (VInt 1) (VInt 2); VList [C_ (VInt 3) (VInt 4)]].
    split; [reflexivity |]. split.
    - repeat constructor; simpl; intuition discriminate.
    - split; [reflexivity |]. constructor; [apply HC |].
      constructor; [| constructor].
      split; [reflexivity |]. exists [C_ (VInt 3) (VInt 4)].
      split; [reflexivity |]. constructor; [apply HC | constructor]. }
  destruct (roundtrip_with_recursion 2 _ Nest HN) as (D & HD & Hback).
  exists D. split; [apply HD |]. apply Hback. simpl. lia.
Defined.

(* ================================================================= *)
(** ** fromdict: the context path of a nested missing key *)

Lemma fields_has c attrs : fields c = Ok attrs -> has c = true.
Proof.
  unfold fields, has. now destruct (__attrs_attrs__ c).
Qed.

Section NestedMissingKey.
Variables (rename : string -> string) (ud : discriminator_t).

(** The nested walk, at the field [b] of [c'], finds no key. *)
Lemma _fromdict_absent n c' pre' b post' d' context cons' :
  fields c' = Ok (pre' ++ b :: post')%list ->
  fromdict_loop true false rename ud n (VDict d') context pre' [] = Ok cons' ->
  dict_lookup d' (VStr (rename (name b))) = None ->
  _fromdict true false rename ud (S n) c' (VDict d') context
  = Error (KeyError (dotted context (rename (name b)))).
Proof.
  intros Hf Hpre Hb. rewrite _fromdict_S, Hf. simpl.
  rewrite fromdict_loop_app, Hpre. cbn [bind fromdict_loop].
  unfold raw_value. simpl. now rewrite Hb.
Qed.

(** The enclosing walk, at the field [a] with the raw value [val], ends
    with the error of the deserialization of [val] that is no
    [TypeError]. *)
Lemma _fromdict_field_error n c pre a post dct context cons val typ e :
  fields c = Ok (pre ++ a :: post)%list ->
  type a = Some typ ->
  fromdict_loop true false rename ud n dct context pre [] = Ok cons ->
  raw_value false dct context (rename (name a)) = Ok val ->
  deserialize_val true false rename ud n context (rename (name a)) val typ
                  (rename (name a)) = Error e ->
  _fromdict true false rename ud (S n) c dct context = Error e.
Proof.
  intros Hf Ht Hpre Hraw Hval. rewrite _fromdict_S, Hf. simpl.
  rewrite fromdict_loop_app, Hpre. cbn [bind fromdict_loop].
  rewrite Hraw. cbn [bind]. unfold field_value. rewrite Ht, Hval.
  reflexivity.
Qed.

(** X9.  A key that is missing in the mapping of a nested instance: the
    missing-key error leaves [fromdict] unchanged, and its path is the
    context of the enclosing walk, the key of the field that holds the
    nested instance, and the missing key, joined by dots. *)
Theorem nested_missing_key_path n c pre a post dct context cons
        c' pre' b post' d' cons' :
  fields c = Ok (pre ++ a :: post)%list ->
  type a = Some (TClass c') ->
  fields c' = Ok (pre' ++ b :: post')%list ->
  fromdict_loop true false rename ud (S (S n)) dct context pre [] = Ok cons ->
  raw_value false dct context (rename (name a)) = Ok (VDict d') ->
  fromdict_loop true false rename ud n (VDict d')
                (context ++ [rename (name a)])%list pre' [] = Ok cons' ->
  dict_lookup d' (VStr (rename (name b))) = None ->
  _fromdict true false rename ud (S (S (S n))) c dct context
  = Error (KeyError (dotted (context ++ [rename (name a)])%list
                            (rename (name b)))).
Proof.
  intros Hf Ht Hf' Hpre Hraw Hpre' Hb.
  apply (_fromdict_field_error _ _ _ _ _ _ _ _ _ _ _ Hf Ht Hpre Hraw).
  rewrite deserialize_val_S. unfold dispatch.
  rewrite (fields_has _ _ Hf').
  now rewrite (_fromdict_absent _ _ _ _ _ _ _ _ Hf' Hpre' Hb).
Qed.

(** X10.  A key that is missing in the mapping of the first element of a
    list of instances: the path has the key of the field followed by
    ["[]"] where the path of a nested instance has the key of the
    field. *)
Theorem element_missing_key_path n c pre a post dct context cons
        type_name c' pre' b post' val d' rest cons' :
  fields c = Ok (pre ++ a :: post)%list ->
  type a = Some (TIter type_name (Some (TClass c'))) ->
  fields c' = Ok (pre' ++ b :: post')%list ->
  fromdict_loop true false rename ud (S (S (S n))) dct context pre []
  = Ok cons ->
  raw_value false dct context (rename (name a)) = Ok val ->
  iter val = Ok (VDict d' :: rest) ->
  fromdict_loop true false rename ud n (VDict d')
                (context ++ [(rename (name a) ++ "[]")%string])%list pre' []
  = Ok cons' ->
  dict_lookup d' (VStr (rename (name b))) = None ->
  _fromdict true false rename ud (S (S (S (S n)))) c dct context
  = Error (KeyError (dotted (context ++ [(rename (name a) ++ "[]")%string])%list
                            (rename (name b)))).
Proof.
  intros Hf Ht Hf' Hpre Hraw Hiter Hpre' Hb.
  apply (_fromdict_field_error _ _ _ _ _ _ _ _ _ _ _ Hf Ht Hpre Hraw).
  rewrite deserialize_val_S. unfold dispatch. rewrite Hiter.
  cbn [bind mapM]. rewrite deserialize_val_S. unfold dispatch.
  rewrite (fields_has _ _ Hf').
  now rewrite (_fromdict_absent _ _ _ _ _ _ _ _ Hf' Hpre' Hb).
Qed.
End NestedMissingKey.

Lemma nested_missing_key_path_witness :
  fromdict true false rename_default union_discriminator_default 3
           (One (TClass C))
           (VDict [(VStr "x", VDict [(VStr "x", VInt 1)])])
  = Error (KeyError "x.y").
Proof.
  exact (nested_missing_key_path rename_default union_discriminator_default
           0 (One (TClass C)) [] (Attribute "x" (Some (TClass C))) []
           (VDict [(VStr "x", VDict [(VStr "x", VInt 1)])]) [] []
           C [Attribute "x" None] (Attribute "y" None) []
           [(VStr "x", VInt 1)] [(VStr "x", VInt 1)]
           eq_refl eq_refl eq_refl eq_refl eq_refl eq_refl eq_refl).
Defined.

Lemma element_missing_key_path_witness :
  fromdict true false rename_default union_discriminator_default 4
           (One (TIter "List" (Some (TClass C))))
           (VDict [(VStr "x", VList [VDict [(VStr "x", VInt 1)]])])
  = Error (KeyError "x[].y").
Proof.
  exact (element_missing_key_path rename_default union_discriminator_default
           0 (One (TIter "List" (Some (TClass C)))) []
           (Attribute "x" (Some (TIter "List" (Some (TClass C))))) []
           (VDict [(VStr "x", VList [VDict [(VStr "x", VInt 1)]])]) [] []
           "List" C [Attribute "x" None] (Attribute "y" None) []
           (VList [VDict [(VStr "x", VInt 1)]]) [(VStr "x", VInt 1)] []
           [(VStr "x", VInt 1)]
           eq_refl eq_refl eq_refl eq_refl eq_refl eq_refl eq_refl eq_refl).
Defined.

(* ================================================================= *)
(** ** fromdict: [ignore_missing] and declared types *)

Section IgnoreMissingTyped.
Variables (rename : string -> string) (ud : discriminator_t).

Lemma _fromdict_ignored_field n c pre a post d context cons typ e :
  fields c = Ok (pre ++ a :: post)%list ->
  type a = Some typ ->
  fromdict_loop true true rename ud n (VDict d) context pre [] = Ok cons ->
  dict_lookup d (VStr (rename (name a))) = None ->
  deserialize_val true true rename ud n context (rename (name a)) VNone typ
                  (rename (name a)) = Error e ->
  _fromdict true true rename ud (S n) c (VDict d) context = Error e.
Proof.
  intros Hf Ht Hpre Ha Hval. rewrite _fromdict_S, Hf. simpl.
  rewrite fromdict_loop_app, Hpre. cbn [bind fromdict_loop].
  unfold raw_value. simpl. rewrite Ha. cbn [bind].
  unfold field_value. rewrite Ht, Hval. reflexivity.
Qed.

(** X11.  With [ignore_missing] and [recurse], a field whose key is absent
    and whose declared type is an iterable container does not become
    [None]: [None] is deserialized as the container, and the call fails
    with the type-mismatch error of [None], the declared type and the path
    of the field. *)
Theorem ignore_missing_iterable_field n c pre a post d context cons
        type_name parameters :
  fields c = Ok (pre ++ a :: post)%list ->
  type a = Some (TIter type_name parameters) ->
  fromdict_loop true true rename ud (S n) (VDict d) context pre [] = Ok cons ->
  dict_lookup d (VStr (rename (name a))) = None ->
  _fromdict true true rename ud (S (S n)) c (VDict d) context
  = Error (TypeError
             (Unable VNone (TIter type_name parameters)
                     (dotted context (rename (name a)))
                     (Msg "'NoneType' object is not iterable"))).
Proof.
  intros Hf Ht Hpre Ha.
  apply (_fromdict_ignored_field _ _ _ _ _ _ _ _ _ _ Hf Ht Hpre Ha).
  rewrite deserialize_val_S. unfold dispatch. now destruct parameters.
Qed.

(** X12.  With [ignore_missing] and [recurse], a field whose key is absent
    and whose declared type is a declarative class with a field: [None] is
    taken as the mapping of the nested instance, and the call fails with
    the [AttributeError] of [None.get], which no handler catches. *)
Theorem ignore_missing_class_field n c pre a post d context cons c' b rest :
  fields c = Ok (pre ++ a :: post)%list ->
  type a = Some (TClass c') ->
  fields c' = Ok (b :: rest) ->
  fromdict_loop true true rename ud (S (S n)) (VDict d) context pre []
  = Ok cons ->
  dict_lookup d (VStr (rename (name a))) = None ->
  _fromdict true true rename ud (S (S (S n))) c (VDict d) context
  = Error (AttributeError "'NoneType' object has no attribute 'get'").
Proof.
  intros Hf Ht Hf' Hpre Ha.
  apply (_fromdict_ignored_field _ _ _ _ _ _ _ _ _ _ Hf Ht Hpre Ha).
  rewrite deserialize_val_S. unfold dispatch.
  rewrite (fields_has _ _ Hf'), _fromdict_S, Hf'. reflexivity.
Qed.
End IgnoreMissingTyped.

Lemma ignore_missing_iterable_field_witness :
  fromdict true true rename_default union_discriminator_default 2
           (One (TIter "list" None)) (VDict [])
  = Error (TypeError (Unable VNone (TIter "list" None) ".x"
                             (Msg "'NoneType' object is not iterable"))).
Proof.
  exact (ignore_missing_iterable_field rename_default
           union_discriminator_default 0 (One (TIter "list" None)) []
           (Attribute "x" (Some (TIter "list" None))) [] [] [] []
           "list" None eq_refl eq_refl eq_refl eq_refl).
Defined.

Lemma ignore_missing_class_field_witness :
  fromdict true true rename_default union_discriminator_default 3
           (One (TClass C)) (VDict [])
  = Error (AttributeError "'NoneType' object has no attribute 'get'").
Proof.
  exact (ignore_missing_class_field rename_default
           union_discriminator_default 0 (One (TClass C)) []
           (Attribute "x" (Some (TClass C))) [] [] [] []
           C (Attribute "x" None) [Attribute "y" None]
           eq_refl eq_refl eq_refl eq_refl eq_refl).
Defined.

(* ================================================================= *)
(** ** fromdict: a source that is no mapping *)

(** X13.  A source that is no mapping and no container, such as an int,
    for a class with a field: the failure of [key_name in dct] is a
    [TypeError].  From [fromdict] itself it reaches the caller as it is;
    from the walk of a nested instance it is caught by the
    [deserialize_val] that started the walk and raised again as the
    type-mismatch error of the value and the class. *)
Theorem non_mapping_source recurse rename ud n c b rest dct m
        context key_name nm :
  fields c = Ok (b :: rest) ->
  contains dct (rename (name b)) = Error (TypeError m) ->
  _fromdict recurse false rename ud (S n) c dct context
  = Error (TypeError m) /\
  deserialize_val recurse false rename ud (S (S n)) context key_name
                  dct (TClass c) nm
  = Error (TypeError (Unable dct (TClass c) (dotted context key_name) m)).
Proof.
  intros Hf Hc.
  assert (H : forall ctx,
             _fromdict recurse false rename ud (S n) c dct ctx
             = Error (TypeError m)).
  { intros ctx. rewrite _fromdict_S, Hf. simpl.
    unfold raw_value. now rewrite Hc. }
  split; [apply H |].
  rewrite deserialize_val_S. unfold dispatch.
  now rewrite (fields_has _ _ Hf), H.
Qed.

Lemma non_mapping_source_witness :
  fromdict true false rename_default union_discriminator_default 1 C (VInt 5)
  = Error (TypeError (Msg "argument of type 'int' is not iterable")) /\
  deserialize_val true false rename_default union_discriminator_default 2
                  [] "x" (VInt 5) (TClass C) "x"
  = Error (TypeError (Unable (VInt 5) (TClass C) ".x"
                             (Msg "argument of type 'int' is not iterable"))).
Proof.
  exact (non_mapping_source true rename_default union_discriminator_default
           0 C (Attribute "x" None) [Attribute "y" None] (VInt 5)
           (Msg "argument of type 'int' is not iterable") [] "x" "x"
           eq_refl eq_refl).
Defined.

(* ================================================================= *)
(** ** fromdict: unions and the discriminator *)

(** X14.  A discriminator that answers, for a value and a union that is
    not optional, that same union: [deserialize_val] calls itself with the
    same arguments and never returns; under every recursion limit the
    call ends with [RecursionError]. *)
Theorem discriminator_answering_the_union recurse im rename ud
        context key_name a ps nm :
  _is_optional (TUnion ps) = false ->
  ud a (TUnion ps) = Ok (TUnion ps) ->
  forall fuel,
    deserialize_val recurse im rename ud fuel context key_name
                    a (TUnion ps) nm = Error RecursionError.
Proof.
  intros Hopt Hud fuel. induction fuel as [| n IH]; [reflexivity |].
  rewrite deserialize_val_S. unfold dispatch.
  rewrite Hopt, Hud. cbn [bind]. now rewrite IH.
Qed.

Lemma discriminator_answering_the_union_witness :
  deserialize_val true false rename_default (fun _ t => Ok t) 7 [] "x"
                  (VInt 1) (TUnion [TStr; TLeaf "int"]) "x"
  = Error RecursionError.
Proof.
  exact (discriminator_answering_the_union true false rename_default
           (fun _ t => Ok t) [] "x" (VInt 1) [TStr; TLeaf "int"] "x"
           eq_refl eq_refl 7).
Defined.

Lemma filter_not_NoneType ps :
  existsb is_NoneType (List.filter (fun t => negb (is_NoneType t)) ps) = false.
Proof.
  induction ps as [| t ps IH]; [reflexivity |].
  simpl. destruct (is_NoneType t) eqn:E; simpl; [exact IH |].
  now rewrite E, IH.
Qed.

(** X15.  An optional union of three or more alternatives and a value
    that is not [None]: the discriminator is asked, with the union of the
    alternatives that are not [NoneType], and the value is deserialized as
    the type it answers.  A [TypeError] on the way is raised again twice,
    for the union and for the optional. *)
Theorem optional_union_asks_discriminator recurse im rename ud n
        context key_name a ps t nm :
  a <> VNone ->
  _is_optional (TUnion ps) = true ->
  2 <= List.length (List.filter (fun t => negb (is_NoneType t)) ps) ->
  ud a (TUnion (List.filter (fun t => negb (is_NoneType t)) ps)) = Ok t ->
  deserialize_val recurse im rename ud (S (S (S n))) context key_name
                  a (TUnion ps) nm
  = reraise_TypeError a (TUnion ps) (dotted context key_name)
      (reraise_TypeError
         a (TUnion (List.filter (fun t => negb (is_NoneType t)) ps))
         (dotted context key_name)
         (deserialize_val recurse im rename ud (S n) context key_name
                          a t nm)).
Proof.
  intros Ha Hopt Hlen Hud.
  set (qs := List.filter (fun t => negb (is_NoneType t)) ps) in *.
  assert (Hps : Nat.ltb 2 (List.length ps) = true).
  { apply Nat.ltb_lt.
    assert (Hlt : List.length qs < List.length ps); [| lia].
    subst qs. clear Hlen Hud. simpl in Hopt.
    induction ps as [| p ps IH]; [discriminate |].
    simpl in *. destruct (is_NoneType p); simpl.
    - pose proof (filter_length_le (fun t => negb (is_NoneType t)) ps). lia.
    - apply IH in Hopt. lia. }
  assert (Hget : Union_getitem qs = Ok (TUnion qs)).
  { destruct qs as [| q1 [| q2 qs']]; simpl in Hlen; try lia. reflexivity. }
  rewrite deserialize_val_S. unfold dispatch at 1.
  rewrite Hopt, Hps. fold qs. rewrite Hget. cbn [bind].
  assert (Hinner :
            deserialize_val recurse im rename ud (S (S n)) context key_name
                            a (TUnion qs) nm
            = reraise_TypeError a (TUnion qs) (dotted context key_name)
                (deserialize_val recurse im rename ud (S n) context key_name
                                 a t nm)).
  { rewrite deserialize_val_S. unfold dispatch at 1.
    assert (Hq : _is_optional (TUnion qs) = false)
      by apply filter_not_NoneType.
    now rewrite Hq, Hud. }
  rewrite Hinner. now destruct a.
Qed.

Lemma optional_union_asks_discriminator_witness :
  deserialize_val true false rename_default (fun _ _ => Ok (TClass C)) 4
                  [] "x" (VDict [(VStr "x", VInt 1); (VStr "y", VInt 2)])
                  (TUnion [TClass C; TStr; TNoneType]) "x"
  = Ok (C_ (VInt 1) (VInt 2)).
Proof.
  assert (Ha : VDict [(VStr "x", VInt 1); (VStr "y", VInt 2)] <> VNone)
    by discriminate.
  assert (Hlen : 2 <= List.length
                        (List.filter (fun t => negb (is_NoneType t))
                                     [TClass C; TStr; TNoneType]))
    by (simpl; lia).
  rewrite (optional_union_asks_discriminator true false rename_default
             (fun _ _ => Ok (TClass C)) 1 [] "x" _
             [TClass C; TStr; TNoneType] (TClass C) "x"
             Ha eq_refl Hlen eq_refl).
  reflexivity.
Defined.

(* ================================================================= *)
(** ** assoc: one call after another *)

(** [assoc] with changes that all name fields: the new reference is the
    next free one, the new object holds the changed attributes, and the
    objects that were in the store are as they were. *)
Lemma assoc_known h inst c d attrs changes :
  nth_error h inst = Some (VInst c d) ->
  __attrs_attrs__ c = Some attrs ->
  (forall k v, In (k, v) changes -> names_field attrs k) ->
  exists h',
    assoc inst changes h = (Ok (List.length h), h') /\
    nth_error h' (List.length h) = Some (VInst c (apply_changes d changes)) /\
    forall l, l < List.length h -> nth_error h' l = nth_error h l.
Proof.
  intros Hinst Hc Hall.
  assert (Hnew : nth_error (h ++ [VInst c d])%list (List.length h)
                 = Some (VInst c d))
    by (rewrite nth_error_app2 by lia; now rewrite Nat.sub_diag).
  rewrite (assoc_eq h inst c d attrs changes Hinst Hc).
  destruct (assoc_loop_known (List.length h) c attrs changes
              _ d Hnew Hall) as [Hok Hobj].
  pose proof (assoc_loop_frame (List.length h) c attrs changes
                (h ++ [VInst c d])%list) as Hframe.
  destruct (assoc_loop _ _ _ _ _) as [[[] |] h']; simpl in *;
    [| discriminate].
  exists h'. repeat split; [exact Hobj |].
  intros l Hl. rewrite Hframe by lia. now apply nth_error_app1.
Qed.

(** X16.  Two calls of [assoc], the second on the result of the first,
    with changes that name fields: the second result holds the attributes
    that one call with all the changes gives, and the instance and the
    first result are both as they were, each in its own object. *)
Theorem assoc_twice h inst c d attrs changes1 changes2 :
  nth_error h inst = Some (VInst c d) ->
  __attrs_attrs__ c = Some attrs ->
  (forall k v, In (k, v) (changes1 ++ changes2)%list -> names_field attrs k) ->
  exists new1 h1 new2 h2 new h',
    assoc inst changes1 h = (Ok new1, h1) /\
    assoc new1 changes2 h1 = (Ok new2, h2) /\
    assoc inst (changes1 ++ changes2)%list h = (Ok new, h') /\
    nth_error h2 new2 = nth_error h' new /\
    nth_error h2 new2
    = Some (VInst c (apply_changes d (changes1 ++ changes2)%list)) /\
    nth_error h2 new1 = Some (VInst c (apply_changes d changes1)) /\
    nth_error h2 inst = Some (VInst c d) /\
    inst <> new1 /\ new1 <> new2 /\ inst <> new2.
Proof.
  intros Hinst Hc Hall.
  assert (Hlt : inst < List.length h)
    by (apply nth_error_Some; now rewrite Hinst).
  destruct (assoc_known h inst c d attrs changes1 Hinst Hc)
    as (h1 & H1 & Hobj1 & Hframe1).
  { intros k v Hin. apply (Hall k v). apply in_or_app. now left. }
  assert (Hlt1 : List.length h < List.length h1)
    by (apply nth_error_Some; now rewrite Hobj1).
  destruct (assoc_known h1 (List.length h) c _ attrs changes2 Hobj1 Hc)
    as (h2 & H2 & Hobj2 & Hframe2).
  { intros k v Hin. apply (Hall k v). apply in_or_app. now right. }
  destruct (assoc_known h inst c d attrs (changes1 ++ changes2)%list
              Hinst Hc Hall) as (h' & H' & Hobj' & _).
  assert (Happ : apply_changes (apply_changes d changes1) changes2
                 = apply_changes d (changes1 ++ changes2)%list)
    by (unfold apply_changes; now rewrite fold_left_app).
  exists (List.length h), h1, (List.length h1), h2, (List.length h), h'.
  rewrite Happ in Hobj2.
  repeat split; try assumption; try lia.
  - now rewrite Hobj2, Hobj'.
  - now rewrite Hframe2, Hobj1 by lia.
  - now rewrite Hframe2, Hframe1, Hinst by lia.
Qed.

Lemma assoc_twice_witness :
  exists new1 h1 new2 h2,
    assoc 0 [("x", VInt 3)] [C_ (VInt 1) (VInt 2)] = (Ok new1, h1) /\
    assoc new1 [("y", VInt 4)] h1 = (Ok new2, h2) /\
    nth_error h2 new2 = Some (C_ (VInt 3) (VInt 4)) /\
    nth_error h2 new1 = Some (C_ (VInt 3) (VInt 2)) /\
    nth_error h2 0 = Some (C_ (VInt 1) (VInt 2)).
Proof.
  destruct (assoc_twice [C_ (VInt 1) (VInt 2)] 0 C _
              [Attribute "x" None; Attribute "y" None]
              [("x", VInt 3)] [("y", VInt 4)] eq_refl eq_refl)
    as (new1 & h1 & new2 & h2 & new & h' & H1 & H2 & _ & _ & Ho2 & Ho1 & Ho & _).
  - intros k v [[= <- <-] | [[= <- <-] | []]].
    + exists (Attribute "x" None). split; [now left | reflexivity].
    + exists (Attribute "y" None). split; [right; now left | reflexivity].
  - exists new1, h1, new2, h2. auto.
Defined.

(* ================================================================= *)
(** ** asdict: dropped fields *)

(** X17.  [asdict] asks the filter before it converts: the result is that
    of the walk over the fields that the filter keeps, and the value of a
    dropped field is not converted, so that it cannot make the call
    fail. *)
Theorem asdict_skips_dropped_fields inst recurse f retain attrs :
  fields (class_of inst) = Ok attrs ->
  (forall a, In a attrs ->
     exists v keep, getattr inst (name a) = Ok v /\ keeps f a v = Ok keep) ->
  asdict inst recurse f retain
  = asdict_loop inst recurse f retain (List.filter (is_kept inst f) attrs) [].
Proof.
  intros Hf H. rewrite asdict_eq, Hf. simpl. clear Hf.
  generalize (@nil (value * value)).
  induction attrs as [| a attrs IH]; intros rv; [reflexivity |].
  assert (IH' := IH (fun a' Ha' => H a' (or_intror Ha'))).
  destruct (H a (or_introl eq_refl)) as (v & keep & Hv & Hk).
  assert (Hkept : is_kept inst f a = keep)
    by (unfold is_kept; now rewrite Hv, Hk).
  cbn [List.filter]. rewrite Hkept.
  destruct keep; cbn [asdict_loop]; rewrite ?Hv; cbn [bind];
    rewrite ?Hk; cbn [bind negb].
  - apply bind_ext; [reflexivity | intros x].
    apply bind_ext; [reflexivity | intros rv']. apply IH'.
  - apply IH'.
Qed.

Lemma asdict_skips_dropped_fields_witness :
  asdict (C_ (VInt 1) (VDict [(C_ (VInt 4) (VInt 5), VInt 3)]))
         true (Some (name_is_not "y")) false
  = Ok (VDict [(VStr "x", VInt 1)]).
Proof.
  rewrite (asdict_skips_dropped_fields
             (C_ (VInt 1) (VDict [(C_ (VInt 4) (VInt 5), VInt 3)]))
             true (Some (name_is_not "y")) false
             [Attribute "x" None; Attribute "y" None] eq_refl).
  - reflexivity.
  - intros a [<- | [<- | []]]; eexists; eexists; split; reflexivity.
Defined.

(* ================================================================= *)
(** ** fromdict: containers of leaf types *)

Lemma deserialize_val_leaf recurse im rename ud n context key_name a t nm :
  is_leaf t = true ->
  deserialize_val recurse im rename ud (S n) context key_name a t nm = Ok a.
Proof.
  intros Ht. rewrite deserialize_val_S. now destruct t.
Qed.

Lemma deserialize_items_leaf recurse im rename ud n context key_name
      key_gen val_gen nm d acc :
  is_leaf key_gen = true ->
  is_leaf val_gen = true ->
  well_keyed d ->
  (forall kv kv', In kv acc -> In kv' d -> py_eq (fst kv) (fst kv') = false) ->
  deserialize_items recurse im rename ud (S n) context key_name
                    key_gen val_gen nm d acc
  = Ok (VDict (acc ++ d)%list).
Proof.
  intros Hk Hv. revert acc.
  induction d as [| [k v] d IH]; intros acc Hwk Hacc; cbn [deserialize_items].
  - now rewrite app_nil_r.
  - destruct Hwk as (Hhash & Hfresh & Hwk).
    rewrite !deserialize_val_leaf by assumption. cbn [bind].
    unfold dict_setitem. rewrite Hhash. cbn [bind].
    rewrite dict_store_fresh.
    + rewrite IH; [now rewrite <- app_assoc | exact Hwk |].
      intros kv kv' Hin Hin'. apply in_app_or in Hin as [Hin | [<- | []]].
      * apply Hacc; [exact Hin | now right].
      * now apply Hfresh.
    + intros kv Hin. apply (Hacc kv (k, v) Hin). now left.
Qed.

(** X18.  A field declared as a mapping or as a list with leaf types as
    parameters: the mapping, and the list, that the source holds is built
    anew from its own keys and values, and elements, and is stored
    unchanged. *)
Theorem leaf_containers_unchanged recurse im rename ud n context key_name
        key_gen val_gen gen type_name d xs nm :
  is_leaf key_gen = true ->
  is_leaf val_gen = true ->
  is_leaf gen = true ->
  well_keyed d ->
  mk_of type_name = mk_list ->
  deserialize_val recurse im rename ud (S (S n)) context key_name
                  (VDict d) (TDict (Some (key_gen, val_gen))) nm
  = Ok (VDict d) /\
  deserialize_val recurse im rename ud (S (S n)) context key_name
                  (VList xs) (TIter type_name (Some gen)) nm
  = Ok (VList xs).
Proof.
  intros Hk Hv Hg Hwk Hmk. split.
  - rewrite deserialize_val_S. unfold dispatch. simpl.
    rewrite (deserialize_items_leaf recurse im rename ud n context key_name
               key_gen val_gen nm d [] Hk Hv Hwk); [reflexivity |].
    intros kv kv' [].
  - rewrite deserialize_val_S. unfold dispatch. simpl.
    rewrite mapM_same.
    + simpl. now rewrite Hmk.
    + intros i _. now apply deserialize_val_leaf.
Qed.

Lemma leaf_containers_unchanged_witness :
  deserialize_val true false rename_default union_discriminator_default 2
                  [] "x" (VDict [(VStr "x", VInt 1); (VStr "y", VInt 2)])
                  (TDict (Some (TStr, TLeaf "int"))) "x"
  = Ok (VDict [(VStr "x", VInt 1); (VStr "y", VInt 2)]).
Proof.
  assert (Hwk : well_keyed [(VStr "x", VInt 1); (VStr "y", VInt 2)]).
  { simpl. split; [reflexivity |]. split; [intros kv [<- | []]; reflexivity |].
    split; [reflexivity |]. split; [intros kv [] | exact I]. }
  exact (proj1 (leaf_containers_unchanged true false rename_default
                  union_discriminator_default 0 [] "x" TStr (TLeaf "int")
                  TStr "List" _ [] "x" eq_refl eq_refl eq_refl Hwk eq_refl)).
Defined.
